(** * A typed key-value storage facade with wildcard event listeners

    Shallow embedding of [src/types.ts], [src/providers/localStorage.ts],
    [src/serializers/defaultJSONSerializer.ts] and [src/storage.ts].

    - the browser's [localStorage] is a finite map from strings to strings,
      and [typeof window === 'undefined'] is a flag of the host;
    - the [_subscribersMap] is a JavaScript [Map] whose values are [Set]
      objects: the map is an insertion-ordered association list from
      pattern strings to heap addresses, and the heap holds the entry list
      of every [Set] object, so that the closure returned by
      [addEventListener] can capture the [Set] object itself;
    - [Set.prototype.forEach] and [Map.prototype.forEach] walk the live
      entry list by index, as ECMAScript prescribes;
    - a callback is a function identity together with the subscription
      operations its body performs when it is called. *)

From stdpp Require Import base option list strings gmap.

(** ** Values *)

#[local] Unset Elimination Schemes.
Inductive JSValue : Type :=
  | JUndefined
  | JNull
  | JBool (b : bool)
  | JNum (n : Z)
  | JStr (s : string)
  | JArr (items : list JSValue)
  | JObj (fields : list (string * JSValue)).
#[local] Set Elimination Schemes.

(** [String.prototype.endsWith]: the substring of [s] that starts at
    [length s - length search] is compared with [search]; a negative start
    gives [false]. *)
Definition endsWith (s search : string) : bool :=
  let len := String.length s in
  let searchLength := String.length search in
  if Nat.ltb len searchLength then false
  else String.eqb (String.substring (len - searchLength) searchLength s) search.

(** ** [src/types.ts] *)

Inductive StorageAction : Type :=
  | ActionSet
  | ActionDelete
  | ActionClear.

(** The run-time value of an action is its string. *)
Definition action_string (a : StorageAction) : string :=
  match a with
  | ActionSet => "set"
  | ActionDelete => "delete"
  | ActionClear => "clear"
  end.

Global Instance StorageAction_eq_dec : EqDecision StorageAction.
Proof. solve_decision. Defined.

(** [StorageEvent]: [key] is [undefined] ([None]) for [clear]; [value] is
    [JUndefined] for [clear]. *)
Record StorageEvent : Type := mkEvent {
  type : StorageAction;
  key : option string;
  value : JSValue
}.

(** [JSONSerializer]. At run time [stringify] may hand back [undefined]
    although its declared type is [string] ([JSON.stringify(undefined)]):
    [None] stands for that. [parse] returns [T | null]. *)
Record JSONSerializer : Type := mkSerializer {
  parse : string -> JSValue;
  stringify : JSValue -> option string
}.

(** [StorageOptions], without its [provider] field: providers receive the
    options and read [prefix] and [jsonSerializer] only; the provider itself
    is the [StorageProvider] instance in scope. *)
Record StorageOptions : Type := mkOptions {
  prefix : option string;
  jsonSerializer : JSONSerializer
}.

(** [StorageProvider], over a backing medium [M]. *)
Class StorageProvider (M : Type) : Type := mkProvider {
  provider_get : string -> StorageOptions -> M -> JSValue;
  provider_set : string -> JSValue -> StorageOptions -> M -> JSValue * M;
  provider_delete : string -> StorageOptions -> M -> JSValue * M;
  provider_clear : StorageOptions -> M -> M
}.

(** ** [src/serializers/defaultJSONSerializer.ts] *)

(** The host's [JSON] object is not part of the repository: it is a
    parameter. [JSON_parse] answers [None] when it throws, [JSON_stringify]
    answers [None] when it returns [undefined]. *)
Record JSONObject : Type := mkJSON {
  JSON_parse : string -> option JSValue;
  JSON_stringify : JSValue -> option string
}.

Definition defaultJSONSerializer (J : JSONObject) : JSONSerializer :=
  {| parse := fun str =>
       match JSON_parse J str with
       | Some v => v
       | None => JNull
       end;
     stringify := fun v => JSON_stringify J v |}.

(** ** The host: [window] and [localStorage] *)

Record Host : Type := mkHost {
  window_defined : bool;
  store : gmap string string
}.

(** Conversion of an argument to a [DOMString]: [undefined] becomes the
    text ["undefined"]. *)
Definition DOMString (s : option string) : string :=
  match s with
  | Some s => s
  | None => "undefined"
  end.

Module localStorage.

Definition getItem (k : string) (h : Host) : option string :=
  store h !! k.

Definition setItem (k : string) (v : option string) (h : Host) : Host :=
  {| window_defined := window_defined h;
     store := <[k := DOMString v]> (store h) |}.

Definition removeItem (k : string) (h : Host) : Host :=
  {| window_defined := window_defined h;
     store := base.delete k (store h) |}.

Definition clear (h : Host) : Host :=
  {| window_defined := window_defined h; store := ∅ |}.

End localStorage.

(** ** [src/providers/localStorage.ts] *)

Module LocalStorageProvider.

(** [options.prefix ? `${options.prefix}${key}` : key]: an absent or
    empty prefix is falsy. *)
Definition prefixedKey (k : string) (options : StorageOptions) : string :=
  match prefix options with
  | Some p => if String.eqb p "" then k else p +:+ k
  | None => k
  end.

Definition get (k : string) (options : StorageOptions) (h : Host) : JSValue :=
  let prefixedKey := prefixedKey k options in
  if negb (window_defined h) then JNull
  else
    match localStorage.getItem prefixedKey h with
    | None => JNull
    | Some strVal => parse (jsonSerializer options) strVal
    end.

Definition set (k : string) (v : JSValue) (options : StorageOptions) (h : Host)
  : JSValue * Host :=
  let prefixedKey := prefixedKey k options in
  if negb (window_defined h) then (JNull, h)
  else
    let strVal := stringify (jsonSerializer options) v in
    (v, localStorage.setItem prefixedKey strVal h).

Definition delete (k : string) (options : StorageOptions) (h : Host)
  : JSValue * Host :=
  let prefixedKey := prefixedKey k options in
  if negb (window_defined h) then (JNull, h)
  else
    let oldValue := get k options h in
    (oldValue, localStorage.removeItem prefixedKey h).

Definition clear (options : StorageOptions) (h : Host) : Host :=
  if negb (window_defined h) then h
  else localStorage.clear h.

End LocalStorageProvider.

Global Instance LocalStorageProvider_inst : StorageProvider Host :=
  {| provider_get := LocalStorageProvider.get;
     provider_set := LocalStorageProvider.set;
     provider_delete := LocalStorageProvider.delete;
     provider_clear := LocalStorageProvider.clear |}.

(** ** [src/storage.ts]: the subscribers map *)

(** A callback is identified by its function identity. *)
Abbreviation Callback := nat (only parsing).

(** The entry list of a [Set] object: a deleted element leaves an empty
    slot ([None]) behind, a new element is appended. *)
Abbreviation SetData := (list (option Callback)) (only parsing).

Module JSSet.

Definition has (c : Callback) (es : SetData) : bool :=
  bool_decide (Some c ∈ es).

Definition add (c : Callback) (es : SetData) : SetData :=
  if has c es then es else es ++ [Some c].

Fixpoint delete (c : Callback) (es : SetData) : SetData :=
  match es with
  | [] => []
  | e :: es' =>
      if decide (e = Some c) then None :: es' else e :: delete c es'
  end.

(** The elements of the set, in insertion order. *)
Definition members (es : SetData) : list Callback := omap id es.

End JSSet.

(** The record of every callback invocation, oldest first. *)
Abbreviation Calls := (list (Callback * StorageEvent)) (only parsing).

(** The entry list of the [Map]: pattern string and address of its [Set]. *)
Abbreviation MapData := (list (string * nat)) (only parsing).

Module JSMap.

Fixpoint get (k : string) (m : MapData) : option nat :=
  match m with
  | [] => None
  | (k', r) :: m' => if String.eqb k' k then Some r else get k m'
  end.

(** [Map.prototype.set]: an existing key keeps its position. *)
Fixpoint set (k : string) (r : nat) (m : MapData) : MapData :=
  match m with
  | [] => [(k, r)]
  | (k', r') :: m' =>
      if String.eqb k' k then (k', r) :: m' else (k', r') :: set k r m'
  end.

End JSMap.

(** [_subscribersMap] and the [Set] objects it points to. *)
Record Router : Type := mkRouter {
  subscribersMap : MapData;
  heap : list SetData
}.

(** The closure [unsubscribe] captures the [Set] object and the callback. *)
Record Unsubscribe : Type := mkUnsubscribe {
  subscribersSet : nat;
  callback : Callback
}.

Definition emptyRouter : Router := {| subscribersMap := []; heap := [] |}.

(** [s.delete(c)] on the [Set] object at address [r]. *)
Definition heap_delete (r : nat) (c : Callback) (st : Router) : Router :=
  match heap st !! r with
  | Some es =>
      {| subscribersMap := subscribersMap st;
         heap := <[r := JSSet.delete c es]> (heap st) |}
  | None => st
  end.

Module Storage.

Definition addEventListener (eventType : string) (c : Callback) (st : Router)
  : Unsubscribe * Router :=
  let '(r, hp) :=
    match JSMap.get eventType (subscribersMap st) with
    | Some r => (r, heap st)
    | None => (length (heap st), heap st ++ [[]])
    end in
  let m := JSMap.set eventType r (subscribersMap st) in
  let hp' :=
    match hp !! r with
    | Some es => <[r := JSSet.add c es]> hp
    | None => hp
    end in
  ({| subscribersSet := r; callback := c |},
   {| subscribersMap := m; heap := hp' |}).

Definition removeEventListener (eventType : string) (c : Callback) (st : Router)
  : Router :=
  match JSMap.get eventType (subscribersMap st) with
  | None => st
  | Some r => heap_delete r c st
  end.

(** Calling the closure returned by [addEventListener]. *)
Definition unsubscribe (u : Unsubscribe) (st : Router) : Router :=
  heap_delete (subscribersSet u) (callback u) st.

(** What the body of a callback may do to the storage that invokes it. *)
Inductive Command : Type :=
  | CmdAddEventListener (eventType : string) (c : Callback)
  | CmdRemoveEventListener (eventType : string) (c : Callback)
  | CmdUnsubscribe (u : Unsubscribe).

Definition run_command (cmd : Command) (st : Router) : Router :=
  match cmd with
  | CmdAddEventListener p c => snd (addEventListener p c st)
  | CmdRemoveEventListener p c => removeEventListener p c st
  | CmdUnsubscribe u => unsubscribe u st
  end.

Definition run_commands (cmds : list Command) (st : Router) : Router :=
  foldl (fun st cmd => run_command cmd st) st cmds.

(** The subscribers currently registered under a pattern. *)
Definition subscribers (p : string) (st : Router) : list Callback :=
  match JSMap.get p (subscribersMap st) with
  | Some r =>
      match heap st !! r with
      | Some es => JSSet.members es
      | None => []
      end
  | None => []
  end.

(** The storage object: its backing medium, its [_subscribersMap], and the
    invocations of callbacks made so far. *)
Record World (M : Type) : Type := mkWorld {
  medium : M;
  router : Router;
  calls : Calls
}.
Arguments mkWorld {M} _ _ _.
Arguments medium {M} _.
Arguments router {M} _.
Arguments calls {M} _.

(** [constructor(options?)]: without options the storage uses the default
    serializer, no prefix, and the [localStorage] provider. *)
Definition constructor (J : JSONObject) (options : option StorageOptions)
  : StorageOptions :=
  match options with
  | Some o => o
  | None => {| prefix := None; jsonSerializer := defaultJSONSerializer J |}
  end.

Section Dispatch.

(** The body of each callback: the subscription operations it performs
    when called with an event. *)
Variable handler : Callback -> StorageEvent -> list Command.

(** [subscribersSet.forEach(cb => { cb(event); })] on the [Set] object
    at address [r], from entry [index] on. The entry list is read again
    at every step: entries appended by a callback are reached, entries
    emptied before they are reached are skipped. [None]: out of fuel. *)
Fixpoint Set_forEach (fuel : nat) (r index : nat) (event : StorageEvent)
    (st : Router) (cs : Calls) : option (Router * Calls) :=
  match fuel with
  | 0 => None
  | S fuel' =>
      match heap st !! r with
      | None => Some (st, cs)
      | Some es =>
          match es !! index with
          | None => Some (st, cs)
          | Some None => Set_forEach fuel' r (S index) event st cs
          | Some (Some cb) =>
              Set_forEach fuel' r (S index) event
                (run_commands (handler cb event) st)
                (cs ++ [(cb, event)])
          end
      end
  end.

(** [this._subscribersMap.get(pattern)?.forEach(...)]. *)
Definition lookup_forEach (fuel : nat) (pattern : string)
    (event : StorageEvent) (st : Router) (cs : Calls)
  : option (Router * Calls) :=
  match JSMap.get pattern (subscribersMap st) with
  | Some r => Set_forEach fuel r 0 event st cs
  | None => Some (st, cs)
  end.

(** [this._subscribersMap.forEach((subscribersSet, key) => ...)] of the
    [clear] branch, from entry [index] on. *)
Fixpoint Map_forEach (fuel : nat) (index : nat) (event : StorageEvent)
    (st : Router) (cs : Calls) : option (Router * Calls) :=
  match fuel with
  | 0 => None
  | S fuel' =>
      match subscribersMap st !! index with
      | None => Some (st, cs)
      | Some (pattern, r) =>
          if endsWith pattern ":*" || endsWith pattern ":clear" then
            match Set_forEach fuel' r 0 event st cs with
            | Some (st', cs') => Map_forEach fuel' (S index) event st' cs'
            | None => None
            end
          else Map_forEach fuel' (S index) event st cs
      end
  end.

(** [`${event.key}`]: an undefined key prints as ["undefined"]. *)
Definition key_string (event : StorageEvent) : string :=
  match key event with
  | Some k => k
  | None => "undefined"
  end.

Definition _notify (fuel : nat) (event : StorageEvent) (st : Router)
    (cs : Calls) : option (Router * Calls) :=
  if decide (type event = ActionClear) then Map_forEach fuel 0 event st cs
  else
    match lookup_forEach fuel
            (key_string event +:+ ":" +:+ action_string (type event))
            event st cs with
    | None => None
    | Some (st1, cs1) =>
        match lookup_forEach fuel ("*:" +:+ action_string (type event))
                event st1 cs1 with
        | None => None
        | Some (st2, cs2) =>
            lookup_forEach fuel (key_string event +:+ ":*") event st2 cs2
        end
    end.

Context {M : Type} {provider : StorageProvider M}.
Variable options : StorageOptions.

Definition serialize (v : JSValue) : option string :=
  stringify (jsonSerializer options) v.

Definition deserialize (str : string) : JSValue :=
  parse (jsonSerializer options) str.

Definition get (k : string) (w : World M) : JSValue :=
  provider_get k options (medium w).

Definition set (fuel : nat) (k : string) (v : JSValue) (w : World M)
  : option (JSValue * World M) :=
  let '(newValue, m) := provider_set k v options (medium w) in
  match _notify fuel {| type := ActionSet; key := Some k; value := newValue |}
          (router w) (calls w) with
  | None => None
  | Some (st, cs) => Some (newValue, mkWorld m st cs)
  end.

Definition delete (fuel : nat) (k : string) (w : World M)
  : option (JSValue * World M) :=
  let '(oldValue, m) := provider_delete k options (medium w) in
  match _notify fuel {| type := ActionDelete; key := Some k; value := oldValue |}
          (router w) (calls w) with
  | None => None
  | Some (st, cs) => Some (oldValue, mkWorld m st cs)
  end.

Definition clear (fuel : nat) (w : World M) : option (World M) :=
  let m := provider_clear options (medium w) in
  match _notify fuel {| type := ActionClear; key := None; value := JUndefined |}
          (router w) (calls w) with
  | None => None
  | Some (st, cs) => Some (mkWorld m st cs)
  end.

End Dispatch.

End Storage.

(** ** The design the specification asks for: snapshots *)

(** A second dispatcher, written after the specification's words, "snapshot
    the subscriber set (copy before iterating) per matched pattern": the
    members of a matched set are copied when its iteration starts and the
    copy is walked. It is compared with [Storage._notify] below. *)
Module SnapshotDesign.
Section Dispatch.

Variable handler : Callback -> StorageEvent -> list Storage.Command.

Fixpoint invoke_all (copy : list Callback) (event : StorageEvent)
    (st : Router) (cs : Calls) : Router * Calls :=
  match copy with
  | [] => (st, cs)
  | cb :: rest =>
      invoke_all rest event
        (Storage.run_commands (handler cb event) st)
        (cs ++ [(cb, event)])
  end.

Definition lookup_forEach (pattern : string) (event : StorageEvent)
    (st : Router) (cs : Calls) : Router * Calls :=
  invoke_all (Storage.subscribers pattern st) event st cs.

Fixpoint Map_forEach (fuel : nat) (index : nat) (event : StorageEvent)
    (st : Router) (cs : Calls) : option (Router * Calls) :=
  match fuel with
  | 0 => None
  | S fuel' =>
      match subscribersMap st !! index with
      | None => Some (st, cs)
      | Some (pattern, r) =>
          if endsWith pattern ":*" || endsWith pattern ":clear" then
            let '(st', cs') := lookup_forEach pattern event st cs in
            Map_forEach fuel' (S index) event st' cs'
          else Map_forEach fuel' (S index) event st cs
      end
  end.

Definition notify_snapshot (fuel : nat) (event : StorageEvent) (st : Router)
    (cs : Calls) : option (Router * Calls) :=
  if decide (type event = ActionClear) then Map_forEach fuel 0 event st cs
  else
    let '(st1, cs1) :=
      lookup_forEach
        (Storage.key_string event +:+ ":" +:+ action_string (type event))
        event st cs in
    let '(st2, cs2) :=
      lookup_forEach ("*:" +:+ action_string (type event)) event st1 cs1 in
    Some (lookup_forEach (Storage.key_string event +:+ ":*") event st2 cs2).

End Dispatch.
End SnapshotDesign.

(** ** Well-formed subscriber maps *)

(** What every reachable [_subscribersMap] satisfies: a pattern occurs once,
    no two patterns share a [Set] object, every address is allocated, and a
    [Set] holds an element once. *)
Definition wf (st : Router) : Prop :=
  NoDup (subscribersMap st).*1
  ∧ NoDup (subscribersMap st).*2
  ∧ Forall (λ pr, pr.2 < length (heap st)) (subscribersMap st)
  ∧ Forall (λ es, NoDup (JSSet.members es)) (heap st).

(** The size of the subscribers map: its patterns and its largest set. *)
Definition dispatch_bound (st : Router) : nat :=
  length (subscribersMap st) + max_list (length <$> heap st).

(** The patterns a [clear] event is routed to, in registration order. *)
Definition clear_patterns (st : Router) : list string :=
  filter (λ p, endsWith p ":*" || endsWith p ":clear" = true)
         (subscribersMap st).*1.

(** How often callback [c] occurs in a record of invocations. *)
Definition invocations (c : Callback) (cs : Calls) : nat :=
  length (filter (λ x, x.1 = c) cs).

(** The invocations of the callbacks [l] with [event]. *)
Definition calls_of (event : StorageEvent) (l : list Callback) : Calls :=
  (λ c, (c, event)) <$> l.

(** The callbacks a [set] or [delete] event is routed to: the subscribers
    of the three candidate patterns, in lookup order. *)
Definition keyed_matched (event : StorageEvent) (st : Router) : list Callback :=
  Storage.subscribers
    (Storage.key_string event +:+ ":" +:+ action_string (type event)) st
  ++ Storage.subscribers ("*:" +:+ action_string (type event)) st
  ++ Storage.subscribers (Storage.key_string event +:+ ":*") st.

(** The callbacks a [clear] event is routed to. *)
Definition clear_matched (st : Router) : list Callback :=
  clear_patterns st ≫= λ p, Storage.subscribers p st.

(** The members of the sets of the map entries [m] that a [clear] event
    is routed to. *)
Definition clear_entries (st : Router) (m : MapData) : list Callback :=
  m ≫= λ pr,
    if endsWith pr.1 ":*" || endsWith pr.1 ":clear"
    then JSSet.members (default [] (heap st !! pr.2)) else [].

(** The callbacks of an event, as registered when the dispatch starts. *)
Definition matched (event : StorageEvent) (st : Router) : list Callback :=
  if decide (type event = ActionClear) then clear_matched st
  else keyed_matched event st.

(** No callback that the event is routed to subscribes or unsubscribes
    while it runs. *)
Definition quiet (handler : Callback -> StorageEvent -> list Storage.Command)
    (event : StorageEvent) (st : Router) : Prop :=
  ∀ c, c ∈ matched event st → handler c event = [].

(** The patterns an event is routed to. *)
Definition routes (event : StorageEvent) (p : string) : bool :=
  if decide (type event = ActionClear)
  then endsWith p ":*" || endsWith p ":clear"
  else String.eqb p (Storage.key_string event +:+ ":"
                     +:+ action_string (type event))
       || String.eqb p ("*:" +:+ action_string (type event))
       || String.eqb p (Storage.key_string event +:+ ":*").

(** A subscription operation that leaves alone the sets that [event] is
    routed to in [st]: it names another pattern, or it is a closure over
    another [Set] object. *)
Definition avoids (event : StorageEvent) (st : Router) (cmd : Storage.Command)
  : Prop :=
  match cmd with
  | Storage.CmdAddEventListener p _ => routes event p = false
  | Storage.CmdRemoveEventListener p _ => routes event p = false
  | Storage.CmdUnsubscribe u =>
      ∀ p, routes event p = true →
           JSMap.get p (subscribersMap st) ≠ Some (subscribersSet u)
  end.

(** The callbacks that the event is routed to subscribe and unsubscribe
    only under patterns that the event is not routed to. *)
Definition discreet (handler : Callback -> StorageEvent -> list Storage.Command)
    (event : StorageEvent) (st : Router) : Prop :=
  ∀ c, c ∈ matched event st → Forall (avoids event st) (handler c event).

(** The subscription operations of the callbacks [l], in order. *)
Definition commands_of (handler : Callback -> StorageEvent -> list Storage.Command)
    (event : StorageEvent) (l : list Callback) : list Storage.Command :=
  l ≫= λ c, handler c event.

(** Fuel that suffices for the dispatch of [event], when the callbacks it
    is routed to run the subscription operations [commands_of]. *)
Definition dispatch_fuel (handler : Callback -> StorageEvent -> list Storage.Command)
    (event : StorageEvent) (st : Router) : nat :=
  dispatch_bound st + length (commands_of handler event (matched event st)).

(** [st] is [st0] after subscription operations that left alone the sets
    that [event] is routed to: these sets are as in [st0], and the map has
    grown by patterns that the event is not routed to. *)
Definition undisturbed (event : StorageEvent) (st0 st : Router) : Prop :=
  wf st
  ∧ (∃ extra, subscribersMap st = subscribersMap st0 ++ extra
              ∧ Forall (λ pr, routes event pr.1 = false) extra)
  ∧ (∀ p r, routes event p = true →
            JSMap.get p (subscribersMap st0) = Some r →
            heap st !! r = heap st0 !! r).

(** ** States the subscribers map can be in *)

(** [st'] is [st] at a later time: after subscription operations and
    dispatches, in any number and order, whichever subscriptions the
    callbacks make and cancel. *)
Inductive evolves (handler : Callback -> StorageEvent -> list Storage.Command)
    (st : Router) : Router -> Prop :=
  | evolves_refl : evolves handler st st
  | evolves_command cmd st' :
      evolves handler st st' ->
      evolves handler st (Storage.run_command cmd st')
  | evolves_notify fuel event st' cs st'' cs' :
      evolves handler st st' ->
      Storage._notify handler fuel event st' cs = Some (st'', cs') ->
      evolves handler st st''.

(** The states of the subscribers map of a storage since it was created. *)
Definition reachable (handler : Callback -> StorageEvent -> list Storage.Command)
    (st : Router) : Prop :=
  evolves handler emptyRouter st.

(** ** [src/localStorage.ts]: the earlier storage class *)

(** [Event] of [abstraction.ts]: a [set] event has a key and a value, a
    [delete] event a key, a [clear] event neither. *)
Inductive Event : Type :=
  | EventSet (k : string) (v : JSValue)
  | EventDelete (k : string)
  | EventClear.

Module SerializableLocalStorage.

(** The [Subscription] returned by [addEventListener]: its [unsubscribe]
    closure captures the callback. *)
Record Subscription : Type := mkSubscription {
  subscribed : Callback
}.

(** What the body of a subscriber may do to the storage that calls it. *)
Inductive Command : Type :=
  | CmdAddEventListener (c : Callback)
  | CmdUnsubscribe (s : Subscription).

(** The storage object and its host: [localStorage], the [_subscribers]
    set, and the invocations of subscribers made so far. *)
Record World : Type := mkWorld {
  host : Host;
  _subscribers : list (option Callback);
  calls : list (Callback * Event)
}.

Definition addEventListener (c : Callback) (w : World) : Subscription * World :=
  ({| subscribed := c |},
   {| host := host w;
      _subscribers := JSSet.add c (_subscribers w);
      calls := calls w |}).

Definition unsubscribe (s : Subscription) (w : World) : World :=
  {| host := host w;
     _subscribers := JSSet.delete (subscribed s) (_subscribers w);
     calls := calls w |}.

Definition run_command (cmd : Command) (w : World) : World :=
  match cmd with
  | CmdAddEventListener c => snd (addEventListener c w)
  | CmdUnsubscribe s => unsubscribe s w
  end.

Definition run_commands (cmds : list Command) (w : World) : World :=
  foldl (fun w cmd => run_command cmd w) w cmds.

Section Class.

(** The host's [JSON] object, the body of each subscriber, and the
    constructor's [prefix]. *)
Variable J : JSONObject.
Variable handler : Callback -> Event -> list Command.
Variable prefix : string.

Definition JSONParseAsync (str : string) : JSValue :=
  match JSON_parse J str with
  | Some v => v
  | None => JNull
  end.

(** [this._subscribers.forEach(cb => { cb(event); })], from entry [index]
    on; the entry list is read again at every step. [None]: out of fuel. *)
Fixpoint forEach (fuel index : nat) (event : Event) (w : World) : option World :=
  match fuel with
  | 0 => None
  | S fuel' =>
      match _subscribers w !! index with
      | None => Some w
      | Some None => forEach fuel' (S index) event w
      | Some (Some cb) =>
          forEach fuel' (S index) event
            (run_commands (handler cb event)
               {| host := host w;
                  _subscribers := _subscribers w;
                  calls := calls w ++ [(cb, event)] |})
      end
  end.

Definition _notify (fuel : nat) (event : Event) (w : World) : option World :=
  forEach fuel 0 event w.

Definition prefixedKey (k : string) : string := prefix +:+ k.

Definition get (k : string) (w : World) : JSValue :=
  let prefixedKey := prefixedKey k in
  if negb (window_defined (host w)) then JNull
  else
    match localStorage.getItem prefixedKey (host w) with
    | None => JNull
    | Some strVal => JSONParseAsync strVal
    end.

Definition set (fuel : nat) (k : string) (v : JSValue) (w : World)
  : option World :=
  let prefixedKey := prefixedKey k in
  if negb (window_defined (host w)) then Some w
  else
    let strVal := JSON_stringify J v in
    _notify fuel (EventSet k v)
      {| host := localStorage.setItem prefixedKey strVal (host w);
         _subscribers := _subscribers w;
         calls := calls w |}.

Definition delete (fuel : nat) (k : string) (w : World) : option World :=
  let prefixedKey := prefixedKey k in
  if negb (window_defined (host w)) then Some w
  else
    _notify fuel (EventDelete k)
      {| host := localStorage.removeItem prefixedKey (host w);
         _subscribers := _subscribers w;
         calls := calls w |}.

Definition clear (fuel : nat) (w : World) : option World :=
  if negb (window_defined (host w)) then Some w
  else
    _notify fuel EventClear
      {| host := localStorage.clear (host w);
         _subscribers := _subscribers w;
         calls := calls w |}.

End Class.

End SerializableLocalStorage.

(** [cs'] is [cs] followed by invocations with [ev]. *)
Definition received (ev : StorageEvent) (cs cs' : Calls) : Prop :=
  ∃ new, cs' = cs ++ new ∧ ∀ c e, (c, e) ∈ new → e = ev.

(** The storage after the subscribers [l] were invoked with [ev]. *)
Definition notified (ev : Event) (l : list Callback)
    (w : SerializableLocalStorage.World) : SerializableLocalStorage.World :=
  {| SerializableLocalStorage.host := SerializableLocalStorage.host w;
     SerializableLocalStorage._subscribers :=
       SerializableLocalStorage._subscribers w;
     SerializableLocalStorage.calls :=
       SerializableLocalStorage.calls w ++ ((λ c, (c, ev)) <$> l) |}.

(** The storage with another host. *)
Definition with_host (h : Host) (w : SerializableLocalStorage.World)
  : SerializableLocalStorage.World :=
  {| SerializableLocalStorage.host := h;
     SerializableLocalStorage._subscribers :=
       SerializableLocalStorage._subscribers w;
     SerializableLocalStorage.calls := SerializableLocalStorage.calls w |}.

(** ** Sample storages *)

(** Callbacks that only observe. *)
Definition silent : Callback → StorageEvent → list Storage.Command :=
  λ _ _, [].

(** [addEventListener(p, c)] for each pair, in order. *)
Definition listen (subs : list (string * Callback)) (st : Router) : Router :=
  foldl (λ st pc, (Storage.addEventListener pc.1 pc.2 st).2) st subs.

(** [onSet] (1) on ["products:set"], [onWildcard] (2) on ["*:*"], and two
    more listeners on ["*:set"] (3) and ["products:*"] (4). *)
Definition products_router : Router :=
  listen [("products:set", 1); ("*:*", 2); ("*:set", 3); ("products:*", 4)]
         emptyRouter.

Definition products_value : JSValue :=
  JArr [JObj [("id", JNum 1); ("name", JStr "x")]].

Definition products_set : StorageEvent :=
  mkEvent ActionSet (Some "products") products_value.

(** Listeners on patterns of every ending. *)
Definition mixed_router : Router :=
  listen [("someKey:clear", 1); ("someKey:*", 2); ("*:*", 3); ("*:clear", 4);
          ("someKey:set", 5); ("*:delete", 6); ("someKey:set", 1)]
         emptyRouter.

Definition clear_event : StorageEvent := mkEvent ActionClear None JUndefined.

(** Callbacks that re-enter the storage: callback 1 removes callback 2 from
    ["k:set"], callback 3 subscribes callback 4 to it. *)
Definition reentrant : Callback → StorageEvent → list Storage.Command :=
  λ c _,
    match c with
    | 1 => [Storage.CmdRemoveEventListener "k:set" 2]
    | 3 => [Storage.CmdAddEventListener "k:set" 4]
    | _ => []
    end.

(** Callback 1 subscribes and unsubscribes under patterns that a [set] of
    ["products"] is not routed to. *)
Definition sideways : Callback → StorageEvent → list Storage.Command :=
  λ c _,
    match c with
    | 1 => [Storage.CmdAddEventListener "other:set" 9;
            Storage.CmdRemoveEventListener "*:*" 2]
    | _ => []
    end.

Definition k_set : StorageEvent := mkEvent ActionSet (Some "k") JNull.

Definition router_1_2 : Router :=
  listen [("k:set", 1); ("k:set", 2)] emptyRouter.

Definition router_3 : Router := listen [("k:set", 3)] emptyRouter.

(** A host [JSON] object cut down to [undefined] and the JSON keywords: on
    the values [undefined], [null], [true] and [false] and on the texts
    ["undefined"], ["null"], ["true"] and ["false"], the only ones it is
    consulted on below, it answers as ECMAScript's [JSON] does
    ([JSON.stringify(undefined)] is [undefined], and [JSON.parse] throws a
    [SyntaxError] on ["undefined"]). *)
Definition keywordJSON : JSONObject :=
  {| JSON_parse := λ str,
       if String.eqb str "null" then Some JNull
       else if String.eqb str "true" then Some (JBool true)
       else if String.eqb str "false" then Some (JBool false)
       else None;
     JSON_stringify := λ v,
       match v with
       | JNull => Some "null"
       | JBool true => Some "true"
       | JBool false => Some "false"
       | _ => None
       end |}.

Definition plain_options : StorageOptions :=
  Storage.constructor keywordJSON None.

Definition prefixed_options : StorageOptions :=
  {| prefix := Some "some-prefix:";
     jsonSerializer := defaultJSONSerializer keywordJSON |}.

(** A browser, with [localStorage], and a server, without [window]. *)
Definition browser (items : list (string * string)) : Host :=
  {| window_defined := true; store := list_to_map items |}.

Definition server : Host := {| window_defined := false; store := ∅ |}.

(** Callback 1 unsubscribes and subscribes itself again under ["k:set"]. *)
Definition restless : Callback → StorageEvent → list Storage.Command :=
  λ c _,
    match c with
    | 1 => [Storage.CmdRemoveEventListener "k:set" 1;
            Storage.CmdAddEventListener "k:set" 1]
    | _ => []
    end.

(** Subscribers of the earlier class that only observe. *)
Definition onlookers
  : Callback → Event → list SerializableLocalStorage.Command :=
  λ _ _, [].

(** Storages of the earlier class with two subscribers, and the place of
    one that unsubscribed, in a browser and on a server. *)
Definition earlier_browser : SerializableLocalStorage.World :=
  {| SerializableLocalStorage.host := browser [("app:a", "true"); ("b", "null")];
     SerializableLocalStorage._subscribers := [Some 1; None; Some 2];
     SerializableLocalStorage.calls := [] |}.

Definition earlier_server : SerializableLocalStorage.World :=
  {| SerializableLocalStorage.host := server;
     SerializableLocalStorage._subscribers := [Some 1; None; Some 2];
     SerializableLocalStorage.calls := [] |}.

(** Membership in a list that is written out. *)
Ltac absent :=
  repeat (apply not_elem_of_cons; split; [done|]); apply not_elem_of_nil.
Ltac present :=
  repeat first [apply list_elem_of_here | apply list_elem_of_further].

(** * Strings *)

Section Strings.

Lemma list_ascii_app (a b : string) :
  String.list_ascii_of_string (a +:+ b)
  = String.list_ascii_of_string a ++ String.list_ascii_of_string b.
Proof. induction a as [|x a IH]; simpl; [done|]. by rewrite IH. Qed.

Lemma list_ascii_length (s : string) :
  String.length s = length (String.list_ascii_of_string s).
Proof. induction s as [|x s IH]; simpl; [done|]. by rewrite IH. Qed.

Lemma list_ascii_substring (n m : nat) (s : string) :
  String.list_ascii_of_string (String.substring n m s)
  = take m (drop n (String.list_ascii_of_string s)).
Proof.
  revert n m. induction s as [|x s IH]; intros n m.
  - destruct n, m; done.
  - destruct n as [|n]; simpl.
    + destruct m as [|m]; simpl; [done|].
      rewrite IH. by rewrite drop_0.
    + apply IH.
Qed.

Lemma list_ascii_inj (a b : string) :
  String.list_ascii_of_string a = String.list_ascii_of_string b → a = b.
Proof.
  intros H. rewrite <- (String.string_of_list_ascii_of_string a).
  rewrite <- (String.string_of_list_ascii_of_string b). by rewrite H.
Qed.

(** [endsWith] holds exactly of the strings that are [search] with
    something in front. *)
Lemma endsWith_spec (s search : string) :
  endsWith s search = true ↔ ∃ a, s = a +:+ search.
Proof.
  unfold endsWith. split.
  - case_eq (String.length s <? String.length search)%nat; [done|].
    intros Hlen%Nat.ltb_ge Heq%String.eqb_eq.
    exists (String.substring 0 (String.length s - String.length search) s).
    apply list_ascii_inj. rewrite list_ascii_app.
    rewrite <- Heq at 2. rewrite !list_ascii_substring, drop_0.
    rewrite (take_ge (drop _ _)).
    + by rewrite take_drop.
    + rewrite length_drop, <- list_ascii_length. lia.
  - intros [a ->].
    assert (Hl : String.length (a +:+ search)
                 = String.length a + String.length search).
    { rewrite !list_ascii_length, list_ascii_app. apply length_app. }
    rewrite Hl.
    replace (String.length a + String.length search <? String.length search)%nat
      with false by (symmetry; apply Nat.ltb_ge; lia).
    apply String.eqb_eq, list_ascii_inj.
    rewrite list_ascii_substring, list_ascii_app.
    replace (String.length a + String.length search - String.length search)
      with (String.length a) by lia.
    rewrite (list_ascii_length a), drop_app_length.
    apply take_ge. by rewrite list_ascii_length.
Qed.

Lemma append_inj_r (a b s : string) : a +:+ s = b +:+ s → a = b.
Proof.
  intros H. apply list_ascii_inj.
  apply (f_equal String.list_ascii_of_string) in H.
  rewrite !list_ascii_app in H. by apply app_inv_tail in H.
Qed.

(** Two strings with the same ending agree on their last characters. *)
Lemma append_last_chars (a b s t : string) :
  a +:+ s = b +:+ t →
  reverse (String.list_ascii_of_string s) ++ reverse (String.list_ascii_of_string a)
  = reverse (String.list_ascii_of_string t) ++ reverse (String.list_ascii_of_string b).
Proof.
  intros H. apply (f_equal String.list_ascii_of_string) in H.
  rewrite !list_ascii_app in H. rewrite <- !reverse_app. by rewrite H.
Qed.

Lemma endsWith_set_not_clear (p : string) :
  endsWith p ":set" = true →
  endsWith p ":*" || endsWith p ":clear" = false.
Proof.
  intros [a ->]%endsWith_spec. apply orb_false_intro.
  - apply not_true_is_false. intros [b H%append_last_chars]%endsWith_spec.
    discriminate H.
  - apply not_true_is_false. intros [b H%append_last_chars]%endsWith_spec.
    discriminate H.
Qed.

Lemma endsWith_delete_not_clear (p : string) :
  endsWith p ":delete" = true →
  endsWith p ":*" || endsWith p ":clear" = false.
Proof.
  intros [a ->]%endsWith_spec. apply orb_false_intro.
  - apply not_true_is_false. intros [b H%append_last_chars]%endsWith_spec.
    discriminate H.
  - apply not_true_is_false. intros [b H%append_last_chars]%endsWith_spec.
    discriminate H.
Qed.

(** The three candidate patterns of a [set] or [delete] event on a key
    other than ["*"] differ from ["*:*"]. *)
Lemma candidate_literal_action_ne (k : string) (a : StorageAction) :
  a ≠ ActionClear → k +:+ ":" +:+ action_string a ≠ "*:*".
Proof.
  intros Ha H.
  assert (H' : k +:+ ":" +:+ action_string a = "" +:+ "*:*") by done.
  destruct a; [| |done]; apply append_last_chars in H'; discriminate H'.
Qed.

Lemma candidate_wildcard_action_ne (a : StorageAction) :
  "*:" +:+ action_string a ≠ "*:*".
Proof. by destruct a. Qed.

Lemma candidate_literal_wildcard_ne (k : string) :
  k ≠ "*" → k +:+ ":*" ≠ "*:*".
Proof. intros Hk H. apply Hk. by apply (append_inj_r k "*" ":*"). Qed.

End Strings.

(** * [Set] and [Map] entry lists *)

Section SetData.

Implicit Types (c : Callback) (es : SetData).

Lemma elem_of_members c es : c ∈ JSSet.members es ↔ Some c ∈ es.
Proof.
  unfold JSSet.members. rewrite list_elem_of_omap. split.
  - intros ([x|] & Hx & Heq); simplify_eq/=. done.
  - intros H. by exists (Some c).
Qed.

Lemma members_app es1 es2 :
  JSSet.members (es1 ++ es2) = JSSet.members es1 ++ JSSet.members es2.
Proof. apply omap_app. Qed.

Lemma members_add c es :
  JSSet.members (JSSet.add c es)
  = if decide (c ∈ JSSet.members es) then JSSet.members es
    else JSSet.members es ++ [c].
Proof.
  unfold JSSet.add, JSSet.has.
  case_bool_decide as H; rewrite <- elem_of_members in H.
  - by rewrite decide_True.
  - rewrite decide_False by done. by rewrite members_app.
Qed.

Lemma members_add_NoDup c es :
  NoDup (JSSet.members es) → NoDup (JSSet.members (JSSet.add c es)).
Proof.
  intros H. rewrite members_add. case_decide; [done|].
  apply NoDup_app. split_and!; [done| |apply NoDup_singleton].
  intros x Hx ->%list_elem_of_singleton. done.
Qed.

Lemma delete_absent c es : c ∉ JSSet.members es → JSSet.delete c es = es.
Proof.
  rewrite elem_of_members.
  induction es as [|e es IH]; intros H; simpl; [done|].
  rewrite not_elem_of_cons in H. destruct H as [Hne Hnin].
  rewrite decide_False by done. by rewrite IH.
Qed.

Lemma filter_absent c (l : list Callback) :
  c ∉ l → filter (λ x, x ≠ c) l = l.
Proof.
  induction l as [|x l IH]; intros H; [done|].
  rewrite not_elem_of_cons in H. destruct H as [Hne Hnin].
  rewrite filter_cons_True by done. by rewrite IH.
Qed.

Lemma members_delete c es :
  NoDup (JSSet.members es) →
  JSSet.members (JSSet.delete c es) = filter (λ x, x ≠ c) (JSSet.members es).
Proof.
  induction es as [|e es IH]; intros Hnd; simpl; [done|].
  case_decide as He.
  - subst e. simpl in *. apply NoDup_cons in Hnd as [Hnin _].
    rewrite filter_cons_False by (intros H; by apply H).
    by rewrite filter_absent.
  - destruct e as [x|]; simpl in *.
    + apply NoDup_cons in Hnd as [_ Hnd].
      rewrite filter_cons_True by congruence. by rewrite IH.
    + by apply IH.
Qed.

Lemma members_delete_NoDup c es :
  NoDup (JSSet.members es) → NoDup (JSSet.members (JSSet.delete c es)).
Proof. intros H. rewrite members_delete by done. by apply NoDup_filter. Qed.

Lemma delete_idemp c es :
  NoDup (JSSet.members es) →
  JSSet.delete c (JSSet.delete c es) = JSSet.delete c es.
Proof.
  intros H. apply delete_absent. rewrite members_delete by done.
  rewrite list_elem_of_filter. intros [Hne _]. by apply Hne.
Qed.

End SetData.

Section MapData.

Implicit Types (k : string) (r : nat) (m : MapData).

Lemma get_Some_elem k r m : JSMap.get k m = Some r → (k, r) ∈ m.
Proof.
  induction m as [|[k' r'] m IH]; simpl; [done|].
  destruct (String.eqb_spec k' k) as [->|Hne].
  - intros [= ->]. left.
  - intros H. right. by apply IH.
Qed.

Lemma get_None k m : JSMap.get k m = None ↔ k ∉ m.*1.
Proof.
  induction m as [|[k' r'] m IH]; simpl.
  - split; [intros _; apply not_elem_of_nil|done].
  - rewrite not_elem_of_cons.
    destruct (String.eqb_spec k' k) as [->|Hne].
    + split; [done|]. by intros [H _].
    + rewrite IH. split; [intros H; split; [congruence|done]|by intros [_ H]].
Qed.

Lemma elem_get k r m : NoDup m.*1 → (k, r) ∈ m → JSMap.get k m = Some r.
Proof.
  induction m as [|[k' r'] m IH]; simpl; intros Hnd Hin.
  - by apply elem_of_nil in Hin.
  - apply NoDup_cons in Hnd as [Hnin Hnd].
    apply elem_of_cons in Hin as [[= -> ->]|Hin].
    + by rewrite String.eqb_refl.
    + destruct (String.eqb_spec k' k) as [->|Hne]; [|by apply IH].
      exfalso. apply Hnin. apply list_elem_of_fmap. by exists (k, r).
Qed.

Lemma set_existing k r m : JSMap.get k m = Some r → JSMap.set k r m = m.
Proof.
  induction m as [|[k' r'] m IH]; simpl; [done|].
  destruct (String.eqb_spec k' k) as [->|Hne].
  - by intros [= ->].
  - intros H. by rewrite IH.
Qed.

Lemma set_fresh k r m : JSMap.get k m = None → JSMap.set k r m = m ++ [(k, r)].
Proof.
  induction m as [|[k' r'] m IH]; simpl; [done|].
  destruct (String.eqb_spec k' k) as [->|Hne]; [done|].
  intros H. by rewrite IH.
Qed.

Lemma get_app_l k r m m' :
  JSMap.get k m = Some r → JSMap.get k (m ++ m') = Some r.
Proof.
  induction m as [|[k' r'] m IH]; simpl; [done|].
  by destruct (String.eqb k' k).
Qed.

Lemma get_app_r k m m' :
  JSMap.get k m = None → JSMap.get k (m ++ m') = JSMap.get k m'.
Proof.
  induction m as [|[k' r'] m IH]; simpl; [done|].
  by destruct (String.eqb k' k).
Qed.

End MapData.

(** * The subscribers map: invariant and subscription operations *)

Section Subscriptions.

Import Storage.

Implicit Types (p q : string) (c : Callback) (st : Router) (r : nat).

Lemma wf_empty : wf emptyRouter.
Proof. repeat split; simpl; constructor. Qed.

Lemma wf_get_lt st p r :
  wf st → JSMap.get p (subscribersMap st) = Some r → r < length (heap st).
Proof.
  intros (_ & _ & Hb & _) H%get_Some_elem.
  rewrite Forall_forall in Hb. by apply Hb in H.
Qed.

Lemma wf_get_is_Some st p r :
  wf st → JSMap.get p (subscribersMap st) = Some r →
  ∃ es, heap st !! r = Some es ∧ NoDup (JSSet.members es).
Proof.
  intros Hwf H. pose proof (wf_get_lt _ _ _ Hwf H) as Hlt.
  apply lookup_lt_is_Some in Hlt as [es Hes]. exists es. split; [done|].
  destruct Hwf as (_ & _ & _ & Hs). rewrite Forall_forall in Hs.
  apply Hs. by apply list_elem_of_lookup_2 in Hes.
Qed.

(** Two patterns never share a [Set] object. *)
Lemma wf_get_inj st p q r :
  wf st →
  JSMap.get p (subscribersMap st) = Some r →
  JSMap.get q (subscribersMap st) = Some r → p = q.
Proof.
  intros (_ & Hr & _ & _) Hp%get_Some_elem Hq%get_Some_elem.
  apply list_elem_of_lookup in Hp as [i Hi], Hq as [j Hj].
  assert (i = j) as ->.
  { eapply NoDup_lookup; [exact Hr| |]; rewrite list_lookup_fmap.
    - by rewrite Hi.
    - by rewrite Hj. }
  congruence.
Qed.

Lemma subscribers_get st p r es :
  JSMap.get p (subscribersMap st) = Some r → heap st !! r = Some es →
  subscribers p st = JSSet.members es.
Proof. intros H1 H2. unfold subscribers. by rewrite H1, H2. Qed.

Lemma subscribers_NoDup st p : wf st → NoDup (subscribers p st).
Proof.
  intros Hwf. unfold subscribers.
  destruct (JSMap.get p (subscribersMap st)) as [r|] eqn:Hg; [|constructor].
  destruct (wf_get_is_Some _ _ _ Hwf Hg) as (es & -> & Hnd). done.
Qed.

Lemma wf_heap_update st r es es' :
  wf st → heap st !! r = Some es →
  (NoDup (JSSet.members es) → NoDup (JSSet.members es')) →
  wf {| subscribersMap := subscribersMap st; heap := <[r := es']> (heap st) |}.
Proof.
  intros (Hk & Hr & Hb & Hs) Hes Hnd. repeat split; simpl; [done|done| |].
  - by rewrite length_insert.
  - apply Forall_insert; [done|]. apply Hnd.
    rewrite Forall_forall in Hs. apply Hs.
    by apply list_elem_of_lookup_2 in Hes.
Qed.

Lemma wf_heap_delete st r c : wf st → wf (heap_delete r c st).
Proof.
  intros Hwf. unfold heap_delete.
  destruct (heap st !! r) as [es|] eqn:Hes; [|done].
  eapply wf_heap_update; [done..|]. apply members_delete_NoDup.
Qed.

(** What [addEventListener] does to a well-formed map, by cases on
    whether the pattern is already registered. *)
Lemma addEventListener_registered st p c r es :
  JSMap.get p (subscribersMap st) = Some r → heap st !! r = Some es →
  addEventListener p c st
  = ({| subscribersSet := r; callback := c |},
     {| subscribersMap := subscribersMap st;
        heap := <[r := JSSet.add c es]> (heap st) |}).
Proof.
  intros Hg Hes. unfold addEventListener. rewrite Hg, Hes.
  by rewrite set_existing.
Qed.

Lemma addEventListener_fresh st p c :
  JSMap.get p (subscribersMap st) = None →
  addEventListener p c st
  = ({| subscribersSet := length (heap st); callback := c |},
     {| subscribersMap := subscribersMap st ++ [(p, length (heap st))];
        heap := heap st ++ [[Some c]] |}).
Proof.
  intros Hg. unfold addEventListener. rewrite Hg.
  rewrite set_fresh by done.
  rewrite lookup_app_r, Nat.sub_diag by done. simpl.
  rewrite insert_app_r_alt, Nat.sub_diag by done. done.
Qed.

Lemma wf_addEventListener st p c : wf st → wf (addEventListener p c st).2.
Proof.
  intros Hwf.
  destruct (JSMap.get p (subscribersMap st)) as [r|] eqn:Hg.
  - destruct (wf_get_is_Some _ _ _ Hwf Hg) as (es & Hes & Hnd).
    rewrite (addEventListener_registered _ _ _ _ _ Hg Hes). simpl.
    eapply wf_heap_update; [done..|]. apply members_add_NoDup.
  - rewrite addEventListener_fresh by done. simpl.
    destruct Hwf as (Hk & Hr & Hb & Hs). repeat split; simpl.
    + rewrite fmap_app. apply NoDup_app. split_and!; [done| |apply NoDup_singleton].
      intros x Hx ->%list_elem_of_singleton. by apply get_None in Hg.
    + rewrite fmap_app. apply NoDup_app. split_and!; [done| |apply NoDup_singleton].
      intros x Hx ->%list_elem_of_singleton.
      apply list_elem_of_fmap in Hx as ([q r] & Heq & Hin). simpl in Heq. subst r.
      rewrite Forall_forall in Hb. apply Hb in Hin. simpl in Hin. lia.
    + rewrite length_app. simpl. apply Forall_app. split.
      * eapply Forall_impl; [exact Hb|]. intros; simpl in *; lia.
      * apply Forall_singleton. simpl. lia.
    + apply Forall_app. split; [done|]. apply Forall_singleton.
      apply NoDup_singleton.
Qed.

Lemma wf_removeEventListener st p c : wf st → wf (removeEventListener p c st).
Proof.
  intros Hwf. unfold removeEventListener.
  destruct (JSMap.get p (subscribersMap st)); [|done].
  by apply wf_heap_delete.
Qed.

Lemma wf_run_command st cmd : wf st → wf (run_command cmd st).
Proof.
  destruct cmd; simpl; intros Hwf.
  - by apply wf_addEventListener.
  - by apply wf_removeEventListener.
  - by apply wf_heap_delete.
Qed.

Lemma wf_run_commands cmds st : wf st → wf (run_commands cmds st).
Proof.
  revert st. induction cmds as [|cmd cmds IH]; intros st Hwf; [done|].
  apply IH. by apply wf_run_command.
Qed.

End Subscriptions.

Section Closures.

Import Storage.

Implicit Types (p q : string) (c : Callback) (st : Router) (r : nat).

Lemma heap_delete_map r c st :
  subscribersMap (heap_delete r c st) = subscribersMap st.
Proof. unfold heap_delete. by destruct (heap st !! r). Qed.

Lemma heap_delete_other r r' c st :
  r' ≠ r → heap (heap_delete r c st) !! r' = heap st !! r'.
Proof.
  intros Hne. unfold heap_delete.
  destruct (heap st !! r) eqn:Hes; [|done]. simpl.
  by rewrite list_lookup_insert_ne.
Qed.

Lemma heap_delete_same r c st es :
  heap st !! r = Some es →
  heap (heap_delete r c st) !! r = Some (JSSet.delete c es).
Proof.
  intros Hes. unfold heap_delete. rewrite Hes. simpl.
  apply list_lookup_insert_eq. by apply lookup_lt_Some in Hes.
Qed.

Lemma heap_delete_idemp r c st :
  wf st → heap_delete r c (heap_delete r c st) = heap_delete r c st.
Proof.
  intros (_ & _ & _ & Hs).
  destruct (heap st !! r) as [es|] eqn:Hes.
  - unfold heap_delete at 1. rewrite (heap_delete_same _ _ _ _ Hes).
    rewrite heap_delete_map. unfold heap_delete. rewrite Hes. simpl.
    rewrite list_insert_insert_eq. rewrite delete_idemp; [done|].
    rewrite Forall_forall in Hs. apply Hs.
    by apply list_elem_of_lookup_2 in Hes.
  - unfold heap_delete. by rewrite !Hes.
Qed.

Lemma subscribers_heap_delete_same st p r c :
  wf st → JSMap.get p (subscribersMap st) = Some r →
  subscribers p (heap_delete r c st) = filter (λ x, x ≠ c) (subscribers p st).
Proof.
  intros Hwf Hg. destruct (wf_get_is_Some _ _ _ Hwf Hg) as (es & Hes & Hnd).
  unfold subscribers. rewrite heap_delete_map, Hg.
  rewrite (heap_delete_same _ _ _ _ Hes), Hes. by apply members_delete.
Qed.

Lemma subscribers_heap_delete_other st p q r c :
  wf st → JSMap.get p (subscribersMap st) = Some r → q ≠ p →
  subscribers q (heap_delete r c st) = subscribers q st.
Proof.
  intros Hwf Hg Hne. unfold subscribers. rewrite heap_delete_map.
  destruct (JSMap.get q (subscribersMap st)) as [r'|] eqn:Hq; [|done].
  rewrite heap_delete_other; [done|]. intros ->.
  apply Hne. by eapply wf_get_inj.
Qed.

(** A pattern keeps the [Set] object it was first given. *)
Lemma get_run_command st cmd p r :
  JSMap.get p (subscribersMap st) = Some r →
  JSMap.get p (subscribersMap (run_command cmd st)) = Some r.
Proof.
  intros Hg. destruct cmd as [q c|q c|u]; simpl.
  - unfold addEventListener.
    destruct (JSMap.get q (subscribersMap st)) as [r'|] eqn:Hq.
    + rewrite set_existing by done.
      by destruct (heap st !! r').
    + rewrite set_fresh by done.
      destruct ((heap st ++ [[]]) !! length (heap st)); simpl;
        by apply get_app_l.
  - unfold removeEventListener.
    destruct (JSMap.get q (subscribersMap st)); [|done].
    by rewrite heap_delete_map.
  - unfold unsubscribe. by rewrite heap_delete_map.
Qed.

Lemma get_run_commands cmds st p r :
  JSMap.get p (subscribersMap st) = Some r →
  JSMap.get p (subscribersMap (run_commands cmds st)) = Some r.
Proof.
  revert st. induction cmds as [|cmd cmds IH]; intros st Hg; [done|].
  apply IH. by apply get_run_command.
Qed.

Lemma addEventListener_get st p c :
  wf st →
  JSMap.get p (subscribersMap (addEventListener p c st).2)
  = Some (subscribersSet (addEventListener p c st).1)
  ∧ callback (addEventListener p c st).1 = c
  ∧ c ∈ subscribers p (addEventListener p c st).2.
Proof.
  intros Hwf.
  destruct (JSMap.get p (subscribersMap st)) as [r|] eqn:Hg.
  - destruct (wf_get_is_Some _ _ _ Hwf Hg) as (es & Hes & Hnd).
    rewrite (addEventListener_registered _ _ _ _ _ Hg Hes). simpl.
    split_and!; [done..|]. unfold subscribers. simpl. rewrite Hg.
    rewrite list_lookup_insert_eq by (by apply lookup_lt_Some in Hes).
    rewrite members_add. case_decide; [done|].
    apply elem_of_app. right. by apply list_elem_of_singleton.
  - rewrite addEventListener_fresh by done. simpl.
    assert (Hp : JSMap.get p (subscribersMap st ++ [(p, length (heap st))])
                 = Some (length (heap st))).
    { rewrite get_app_r by done. simpl. by rewrite String.eqb_refl. }
    split_and!; [done..|]. unfold subscribers. simpl. rewrite Hp.
    rewrite lookup_app_r, Nat.sub_diag by done. simpl.
    by apply list_elem_of_singleton.
Qed.

End Closures.

(** * What an event is routed to *)

Section Routing.

Import Storage.

Implicit Types (p : string) (st : Router) (cs : Calls) (ev : StorageEvent).

Lemma calls_of_app ev (l1 l2 : list Callback) :
  calls_of ev (l1 ++ l2) = calls_of ev l1 ++ calls_of ev l2.
Proof. apply fmap_app. Qed.

Lemma heap_length_bound st r es :
  heap st !! r = Some es → length es ≤ max_list (length <$> heap st).
Proof.
  intros H. apply max_list_elem_of_le, list_elem_of_fmap.
  exists es. split; [done|]. by apply list_elem_of_lookup_2 in H.
Qed.

(** On a well-formed map the entries a [clear] event is routed to are the
    subscribers of the patterns that end with [":*"] or [":clear"]. *)
Lemma clear_entries_matched st : wf st →
  clear_entries st (subscribersMap st) = clear_matched st.
Proof.
  intros (Hk & _ & _ & _). unfold clear_matched, clear_patterns.
  assert (H : ∀ m, (∀ pr, pr ∈ m → JSMap.get pr.1 (subscribersMap st) = Some pr.2) →
    clear_entries st m
    = filter (λ p, endsWith p ":*" || endsWith p ":clear" = true) m.*1
      ≫= λ p, subscribers p st).
  { induction m as [|[p r] m IH]; intros Hm; [done|].
    unfold clear_entries in *. rewrite bind_cons, fmap_cons. simpl.
    rewrite IH by (intros; apply Hm; by right).
    destruct (endsWith p ":*" || endsWith p ":clear") eqn:Hp.
    - rewrite filter_cons_True by done. rewrite bind_cons.
      pose proof (Hm (p, r) ltac:(left)) as Hpr. simpl in Hpr.
      unfold subscribers at 2. rewrite Hpr. simpl.
      by destruct (heap st !! r).
    - by rewrite filter_cons_False by (by rewrite Hp). }
  apply H. intros [p r] Hin. simpl. by apply elem_get.
Qed.

Lemma matched_keyed ev st :
  type ev ≠ ActionClear → matched ev st = keyed_matched ev st.
Proof. intros H. unfold matched. by rewrite decide_False. Qed.

Lemma matched_clear ev st :
  type ev = ActionClear → matched ev st = clear_matched st.
Proof. intros H. unfold matched. by rewrite decide_True. Qed.

End Routing.

(** * Counting invocations *)

Section Invocations.

Implicit Types (c : Callback) (ev : StorageEvent) (l : list Callback).

Lemma invocations_app c (cs1 cs2 : Calls) :
  invocations c (cs1 ++ cs2) = invocations c cs1 + invocations c cs2.
Proof. unfold invocations. by rewrite filter_app, length_app. Qed.

Lemma invocations_absent c ev l : c ∉ l → invocations c (calls_of ev l) = 0.
Proof.
  unfold invocations, calls_of.
  induction l as [|x l IH]; intros H; [done|].
  rewrite not_elem_of_cons in H. destruct H as [Hne Hnin].
  rewrite fmap_cons, filter_cons_False by (simpl; congruence). by apply IH.
Qed.

(** A callback occurs at most once in a [Set], so a walk over the set
    invokes it at most once. *)
Lemma invocations_NoDup c ev l :
  NoDup l → invocations c (calls_of ev l) = if decide (c ∈ l) then 1 else 0.
Proof.
  induction l as [|x l IH]; intros Hnd.
  - rewrite decide_False by apply not_elem_of_nil. done.
  - apply NoDup_cons in Hnd as [Hnin Hnd]. specialize (IH Hnd).
    unfold invocations, calls_of in *. rewrite fmap_cons.
    destruct (decide (x = c)) as [->|Hne].
    + rewrite filter_cons_True by done. simpl.
      rewrite decide_True by left.
      pose proof (invocations_absent c ev l Hnin) as H0.
      unfold invocations, calls_of in H0. by rewrite H0.
    + rewrite filter_cons_False by done. rewrite IH.
      destruct (decide (c ∈ l)) as [Hin|Hnin'].
      * by rewrite decide_True by (by right).
      * rewrite decide_False; [done|].
        rewrite not_elem_of_cons. split; [congruence|done].
Qed.

Lemma calls_of_event c ev ev' l : (c, ev') ∈ calls_of ev l → ev' = ev ∧ c ∈ l.
Proof.
  unfold calls_of. intros (x & [= -> ->] & Hin)%list_elem_of_fmap. done.
Qed.

Lemma calls_of_elem c ev l : c ∈ l → (c, ev) ∈ calls_of ev l.
Proof. intros H. unfold calls_of. apply list_elem_of_fmap. by exists c. Qed.

End Invocations.

(** * Re-entrant callbacks *)

Section Reentrancy.

Import Storage.

Variable handler : Callback → StorageEvent → list Command.

Lemma run_commands_app (cmds1 cmds2 : list Command) (st : Router) :
  run_commands (cmds1 ++ cmds2) st = run_commands cmds2 (run_commands cmds1 st).
Proof. apply foldl_app. Qed.

(** Whatever a dispatch does to the subscribers map, it does by running
    the subscription operations of the callbacks it invokes. *)
Lemma Set_forEach_run_commands fuel r i ev st cs st' cs' :
  Set_forEach handler fuel r i ev st cs = Some (st', cs') →
  ∃ cmds, st' = run_commands cmds st.
Proof.
  revert i st cs. induction fuel as [|fuel IH]; intros i st cs; [done|].
  cbn [Set_forEach]. destruct (heap st !! r) as [es|].
  - destruct (es !! i) as [[c|]|].
    + intros (cmds & ->)%IH. exists (handler c ev ++ cmds).
      by rewrite run_commands_app.
    + apply IH.
    + intros [= <- <-]. by exists [].
  - intros [= <- <-]. by exists [].
Qed.

Lemma lookup_forEach_run_commands fuel p ev st cs st' cs' :
  lookup_forEach handler fuel p ev st cs = Some (st', cs') →
  ∃ cmds, st' = run_commands cmds st.
Proof.
  unfold lookup_forEach. destruct (JSMap.get p (subscribersMap st)).
  - apply Set_forEach_run_commands.
  - intros [= <- <-]. by exists [].
Qed.

Lemma Map_forEach_run_commands fuel i ev st cs st' cs' :
  Map_forEach handler fuel i ev st cs = Some (st', cs') →
  ∃ cmds, st' = run_commands cmds st.
Proof.
  revert i st cs. induction fuel as [|fuel IH]; intros i st cs; [done|].
  cbn [Map_forEach]. destruct (subscribersMap st !! i) as [[p r]|].
  - destruct (endsWith p ":*" || endsWith p ":clear").
    + destruct (Set_forEach handler fuel r 0 ev st cs) as [[st1 cs1]|] eqn:H1;
        [|done].
      apply Set_forEach_run_commands in H1 as (cmds1 & ->).
      intros (cmds & ->)%IH. exists (cmds1 ++ cmds).
      by rewrite run_commands_app.
    + apply IH.
  - intros [= <- <-]. by exists [].
Qed.

Lemma notify_run_commands fuel ev st cs st' cs' :
  _notify handler fuel ev st cs = Some (st', cs') →
  ∃ cmds, st' = run_commands cmds st.
Proof.
  unfold _notify. case_decide; [apply Map_forEach_run_commands|].
  destruct (lookup_forEach _ _ _ _ st cs) as [[st1 cs1]|] eqn:H1; [|done].
  destruct (lookup_forEach _ _ _ _ st1 cs1) as [[st2 cs2]|] eqn:H2; [|done].
  intros H3.
  apply lookup_forEach_run_commands in H1 as (cmds1 & ->).
  apply lookup_forEach_run_commands in H2 as (cmds2 & ->).
  apply lookup_forEach_run_commands in H3 as (cmds3 & ->).
  exists (cmds1 ++ cmds2 ++ cmds3). by rewrite !run_commands_app.
Qed.

Lemma notify_wf fuel ev st cs st' cs' :
  wf st → _notify handler fuel ev st cs = Some (st', cs') → wf st'.
Proof.
  intros Hwf (cmds & ->)%notify_run_commands. by apply wf_run_commands.
Qed.

End Reentrancy.

(** * Callbacks that subscribe and unsubscribe elsewhere *)

Section Discreet.

Import Storage.

Variable handler : Callback → StorageEvent → list Command.
Variable ev : StorageEvent.
Variable st0 : Router.

Implicit Types (p q : string) (c : Callback) (st : Router) (r : nat) (cs : Calls).

Lemma undisturbed_refl : wf st0 → undisturbed ev st0 st0.
Proof.
  intros Hwf. split_and!; [done| |done].
  exists []. by rewrite app_nil_r.
Qed.

Lemma undisturbed_get st p :
  undisturbed ev st0 st → routes ev p = true →
  JSMap.get p (subscribersMap st) = JSMap.get p (subscribersMap st0).
Proof.
  intros (_ & (extra & -> & Hex) & _) Hp.
  destruct (JSMap.get p (subscribersMap st0)) as [r|] eqn:Hg.
  - by apply get_app_l.
  - rewrite get_app_r by done. apply get_None.
    intros ([q r] & -> & Hin)%list_elem_of_fmap.
    rewrite Forall_forall in Hex. apply Hex in Hin. simpl in *. congruence.
Qed.

(** A routed set is not the set of a pattern that is not routed. *)
Lemma undisturbed_apart st p q r rq :
  undisturbed ev st0 st → routes ev p = true → routes ev q = false →
  JSMap.get p (subscribersMap st0) = Some r →
  JSMap.get q (subscribersMap st) = Some rq → r ≠ rq.
Proof.
  intros Hund Hp Hq Hg Hgq ->.
  pose proof (undisturbed_get _ _ Hund Hp) as Hgp. rewrite Hg in Hgp.
  destruct Hund as (Hwf & _).
  assert (p = q) by (by eapply wf_get_inj). congruence.
Qed.

Lemma undisturbed_run_command st cmd :
  undisturbed ev st0 st → avoids ev st0 cmd →
  undisturbed ev st0 (run_command cmd st).
Proof.
  intros Hund Hav. pose proof Hund as (Hwf & (extra & Hm & Hex) & Hheap).
  destruct cmd as [q c|q c|u]; simpl in *.
  - pose proof (wf_addEventListener st q c Hwf) as Hwf'.
    destruct (JSMap.get q (subscribersMap st)) as [rq|] eqn:Hq.
    + destruct (wf_get_is_Some _ _ _ Hwf Hq) as (es & Hes & _).
      rewrite (addEventListener_registered _ _ _ _ _ Hq Hes) in Hwf' |- *.
      split_and!; [done|exists extra; split; assumption|]. simpl. intros p r Hp Hg.
      rewrite list_lookup_insert_ne; [by apply (Hheap p)|].
      intros ->. by eapply (undisturbed_apart st p q).
    + rewrite addEventListener_fresh in Hwf' |- * by done.
      split_and!; [done| |]; simpl.
      * exists (extra ++ [(q, length (heap st))]). rewrite Hm, app_assoc.
        split; [done|]. apply Forall_app. split; [done|].
        by apply Forall_singleton.
      * intros p r Hp Hg. rewrite lookup_app_l; [by apply (Hheap p)|].
        eapply wf_get_lt; [done|]. by rewrite undisturbed_get.
  - unfold removeEventListener.
    destruct (JSMap.get q (subscribersMap st)) as [rq|] eqn:Hq; [|done].
    split_and!.
    + by apply wf_heap_delete.
    + rewrite heap_delete_map. exists extra; split; assumption.
    + intros p r Hp Hg. rewrite heap_delete_other; [by apply (Hheap p)|].
      by eapply (undisturbed_apart st p q).
  - unfold unsubscribe. split_and!.
    + by apply wf_heap_delete.
    + rewrite heap_delete_map. exists extra; split; assumption.
    + intros p r Hp Hg. rewrite heap_delete_other; [by apply (Hheap p)|].
      intros ->. by eapply Hav.
Qed.

Lemma undisturbed_run_commands cmds st :
  undisturbed ev st0 st → Forall (avoids ev st0) cmds →
  undisturbed ev st0 (run_commands cmds st).
Proof.
  revert st. induction cmds as [|cmd cmds IH]; intros st Hund Hav; [done|].
  apply Forall_cons in Hav as [Hcmd Hav]. simpl.
  apply IH; [|done]. by apply undisturbed_run_command.
Qed.

Lemma length_map_run_command st cmd :
  length (subscribersMap (run_command cmd st)) ≤ S (length (subscribersMap st)).
Proof.
  destruct cmd as [q c|q c|u]; simpl.
  - unfold addEventListener.
    destruct (JSMap.get q (subscribersMap st)) as [rq|] eqn:Hq.
    + rewrite set_existing by done. destruct (heap st !! rq); simpl; lia.
    + rewrite set_fresh by done.
      destruct ((heap st ++ [[]]) !! length (heap st)); simpl;
        rewrite length_app; simpl; lia.
  - unfold removeEventListener.
    destruct (JSMap.get q (subscribersMap st)); [|lia].
    rewrite heap_delete_map. lia.
  - unfold unsubscribe. rewrite heap_delete_map. lia.
Qed.

Lemma length_map_run_commands cmds st :
  length (subscribersMap (run_commands cmds st))
  ≤ length (subscribersMap st) + length cmds.
Proof.
  revert st. induction cmds as [|cmd cmds IH]; intros st; [simpl; lia|].
  change (run_commands (cmd :: cmds) st)
    with (run_commands cmds (run_command cmd st)).
  specialize (IH (run_command cmd st)).
  pose proof (length_map_run_command st cmd). simpl. lia.
Qed.


Lemma invoke_all_calls (l : list Callback) st cs :
  (SnapshotDesign.invoke_all handler l ev st cs).2 = cs ++ calls_of ev l.
Proof.
  revert st cs. induction l as [|c l IH]; intros st cs; simpl.
  - by rewrite app_nil_r.
  - rewrite IH. by rewrite <- app_assoc.
Qed.

Lemma invoke_all_state (l : list Callback) st cs :
  (SnapshotDesign.invoke_all handler l ev st cs).1
  = run_commands (commands_of handler ev l) st.
Proof.
  revert st cs. induction l as [|c l IH]; intros st cs; [done|].
  cbn [SnapshotDesign.invoke_all]. rewrite IH. unfold commands_of.
  rewrite bind_cons. by rewrite run_commands_app.
Qed.

Lemma invoke_all_app (l1 l2 : list Callback) st cs :
  SnapshotDesign.invoke_all handler (l1 ++ l2) ev st cs
  = SnapshotDesign.invoke_all handler l2 ev
      (SnapshotDesign.invoke_all handler l1 ev st cs).1
      (SnapshotDesign.invoke_all handler l1 ev st cs).2.
Proof.
  revert st cs. induction l1 as [|c l1 IH]; intros st cs; simpl; [done|].
  apply IH.
Qed.

Lemma commands_of_avoid (l : list Callback) :
  (∀ c, c ∈ l → Forall (avoids ev st0) (handler c ev)) →
  Forall (avoids ev st0) (commands_of handler ev l).
Proof.
  intros H. unfold commands_of. apply Forall_forall.
  intros cmd (c & Hcmd & Hc)%list_elem_of_bind.
  specialize (H c Hc). rewrite Forall_forall in H. by apply H.
Qed.

Lemma undisturbed_invoke_all (l : list Callback) st cs :
  undisturbed ev st0 st →
  (∀ c, c ∈ l → Forall (avoids ev st0) (handler c ev)) →
  undisturbed ev st0 (SnapshotDesign.invoke_all handler l ev st cs).1.
Proof.
  intros Hund Hav. rewrite invoke_all_state.
  apply undisturbed_run_commands; [done|]. by apply commands_of_avoid.
Qed.

(** Walking a set that the callbacks leave alone is walking a copy. *)
Lemma Set_forEach_discreet fuel r i st cs es p :
  routes ev p = true →
  JSMap.get p (subscribersMap st0) = Some r →
  heap st0 !! r = Some es →
  undisturbed ev st0 st →
  (∀ c, c ∈ JSSet.members (drop i es) → Forall (avoids ev st0) (handler c ev)) →
  length es - i < fuel →
  Set_forEach handler fuel r i ev st cs
  = Some (SnapshotDesign.invoke_all handler (JSSet.members (drop i es)) ev st cs).
Proof.
  intros Hp Hg Hes. revert i st cs.
  induction fuel as [|fuel IH]; intros i st cs Hund Hav Hfuel; [lia|].
  cbn [Set_forEach].
  assert (Hst : heap st !! r = Some es).
  { destruct Hund as (_ & _ & Hheap). by rewrite (Hheap p r). }
  rewrite Hst. destruct (es !! i) as [[c|]|] eqn:Hi.
  - rewrite (drop_S _ _ _ Hi) in Hav |- *. simpl in *.
    pose proof (lookup_lt_Some _ _ _ Hi).
    apply IH; [|intros; apply Hav; by right|lia].
    apply undisturbed_run_commands; [done|]. apply Hav. left.
  - rewrite (drop_S _ _ _ Hi) in Hav |- *. simpl in *.
    pose proof (lookup_lt_Some _ _ _ Hi).
    apply IH; [done..|lia].
  - apply lookup_ge_None in Hi. by rewrite drop_ge by done.
Qed.

Lemma undisturbed_subscribers st p :
  undisturbed ev st0 st → routes ev p = true →
  subscribers p st = subscribers p st0.
Proof.
  intros Hund Hp. unfold subscribers. rewrite undisturbed_get by done.
  destruct (JSMap.get p (subscribersMap st0)) as [r|] eqn:Hg; [|done].
  destruct Hund as (_ & _ & Hheap). by rewrite (Hheap p r).
Qed.

Lemma lookup_forEach_discreet fuel p st cs :
  wf st0 →
  routes ev p = true →
  undisturbed ev st0 st →
  (∀ c, c ∈ subscribers p st0 → Forall (avoids ev st0) (handler c ev)) →
  dispatch_bound st0 < fuel →
  lookup_forEach handler fuel p ev st cs
  = Some (SnapshotDesign.invoke_all handler (subscribers p st0) ev st cs).
Proof.
  intros Hwf0 Hp Hund Hav Hfuel. unfold lookup_forEach.
  rewrite undisturbed_get by done. unfold subscribers in *.
  destruct (JSMap.get p (subscribersMap st0)) as [r|] eqn:Hg; [|done].
  destruct (wf_get_is_Some _ _ _ Hwf0 Hg) as (es & Hes & _).
  rewrite Hes in *.
  rewrite (Set_forEach_discreet _ _ _ _ _ es p), drop_0; [done..| |].
  - by rewrite drop_0.
  - pose proof (heap_length_bound _ _ _ Hes). unfold dispatch_bound in Hfuel. lia.
Qed.


Lemma routes_keyed :
  type ev ≠ ActionClear →
  routes ev (key_string ev +:+ ":" +:+ action_string (type ev)) = true
  ∧ routes ev ("*:" +:+ action_string (type ev)) = true
  ∧ routes ev (key_string ev +:+ ":*") = true.
Proof.
  intros Hty. unfold routes.
  destruct (decide (type ev = ActionClear)); [done|].
  split_and!; rewrite String.eqb_refl; by rewrite ?orb_true_r.
Qed.

Lemma routes_clear p :
  type ev = ActionClear →
  routes ev p = endsWith p ":*" || endsWith p ":clear".
Proof. intros Hty. unfold routes. by rewrite decide_True. Qed.

Lemma notify_discreet_keyed fuel cs :
  wf st0 → type ev ≠ ActionClear →
  (∀ c, c ∈ keyed_matched ev st0 → Forall (avoids ev st0) (handler c ev)) →
  dispatch_bound st0 < fuel →
  _notify handler fuel ev st0 cs
  = Some (SnapshotDesign.invoke_all handler (keyed_matched ev st0) ev st0 cs)
  ∧ SnapshotDesign.notify_snapshot handler fuel ev st0 cs
    = Some (SnapshotDesign.invoke_all handler (keyed_matched ev st0) ev st0 cs).
Proof.
  intros Hwf0 Hty Hav Hfuel.
  destruct (routes_keyed Hty) as (Hp1 & Hp2 & Hp3).
  unfold _notify, SnapshotDesign.notify_snapshot, keyed_matched in *.
  rewrite !decide_False by done.
  set (p1 := key_string ev +:+ ":" +:+ action_string (type ev)) in *.
  set (p2 := "*:" +:+ action_string (type ev)) in *.
  set (p3 := key_string ev +:+ ":*") in *.
  pose proof (undisturbed_refl Hwf0) as Hund0.
  assert (Hav1 : ∀ c, c ∈ subscribers p1 st0 → Forall (avoids ev st0) (handler c ev))
    by (intros; apply Hav; rewrite !elem_of_app; auto).
  assert (Hav2 : ∀ c, c ∈ subscribers p2 st0 → Forall (avoids ev st0) (handler c ev))
    by (intros; apply Hav; rewrite !elem_of_app; auto).
  assert (Hav3 : ∀ c, c ∈ subscribers p3 st0 → Forall (avoids ev st0) (handler c ev))
    by (intros; apply Hav; rewrite !elem_of_app; auto).
  pose proof (undisturbed_invoke_all (subscribers p1 st0) st0 cs Hund0 Hav1) as Hund1.
  split.
  - rewrite !invoke_all_app.
    rewrite lookup_forEach_discreet by done.
    destruct (SnapshotDesign.invoke_all handler (subscribers p1 st0) ev st0 cs)
      as [st1 cs1]. simpl in Hund1 |- *.
    rewrite lookup_forEach_discreet by done.
    pose proof (undisturbed_invoke_all (subscribers p2 st0) st1 cs1 Hund1 Hav2)
      as Hund2.
    destruct (SnapshotDesign.invoke_all handler (subscribers p2 st0) ev st1 cs1)
      as [st2 cs2]. simpl in Hund2 |- *.
    by rewrite lookup_forEach_discreet by done.
  - rewrite !invoke_all_app. unfold SnapshotDesign.lookup_forEach.
    destruct (SnapshotDesign.invoke_all handler (subscribers p1 st0) ev st0 cs)
      as [st1 cs1]. simpl in Hund1 |- *.
    rewrite (undisturbed_subscribers st1 p2) by done.
    pose proof (undisturbed_invoke_all (subscribers p2 st0) st1 cs1 Hund1 Hav2)
      as Hund2.
    destruct (SnapshotDesign.invoke_all handler (subscribers p2 st0) ev st1 cs1)
      as [st2 cs2]. simpl in Hund2 |- *.
    by rewrite (undisturbed_subscribers st2 p3) by done.
Qed.


Lemma clear_entries_cons st (pr : string * nat) (m : list (string * nat)) :
  clear_entries st (pr :: m)
  = (if endsWith pr.1 ":*" || endsWith pr.1 ":clear"
     then JSSet.members (default [] (heap st !! pr.2)) else [])
    ++ clear_entries st m.
Proof. unfold clear_entries. by rewrite bind_cons. Qed.

Lemma commands_of_app (l1 l2 : list Callback) :
  commands_of handler ev (l1 ++ l2)
  = commands_of handler ev l1 ++ commands_of handler ev l2.
Proof. unfold commands_of. apply bind_app. Qed.

Lemma length_map_invoke_all (l : list Callback) st cs :
  length (subscribersMap (SnapshotDesign.invoke_all handler l ev st cs).1)
  ≤ length (subscribersMap st) + length (commands_of handler ev l).
Proof. rewrite invoke_all_state. apply length_map_run_commands. Qed.

(** The walk over the map, when the callbacks leave the routed sets alone:
    the map may grow while it is walked, by patterns that are skipped. *)
Lemma Map_forEach_discreet fuel i st cs :
  wf st0 → type ev = ActionClear →
  undisturbed ev st0 st →
  (∀ c, c ∈ clear_entries st0 (drop i (subscribersMap st0)) →
        Forall (avoids ev st0) (handler c ev)) →
  length (subscribersMap st) - i
  + length (commands_of handler ev
              (clear_entries st0 (drop i (subscribersMap st0))))
  + max_list (length <$> heap st0) < fuel →
  Map_forEach handler fuel i ev st cs
  = Some (SnapshotDesign.invoke_all handler
            (clear_entries st0 (drop i (subscribersMap st0))) ev st cs)
  ∧ SnapshotDesign.Map_forEach handler fuel i ev st cs
    = Some (SnapshotDesign.invoke_all handler
              (clear_entries st0 (drop i (subscribersMap st0))) ev st cs).
Proof.
  intros Hwf0 Hty. revert i st cs.
  induction fuel as [|fuel IH]; intros i st cs Hund Hav Hfuel; [lia|].
  cbn [Map_forEach SnapshotDesign.Map_forEach].
  pose proof Hund as (Hwf & (extra & Hm & Hex) & Hheap).
  destruct (subscribersMap st !! i) as [[p r]|] eqn:Hi.
  - pose proof (lookup_lt_Some _ _ _ Hi) as Hlt.
    rewrite <- (routes_clear p Hty).
    destruct (decide (i < length (subscribersMap st0))) as [Hi0|Hi0].
    + assert (Hi' : subscribersMap st0 !! i = Some (p, r)).
      { rewrite Hm, lookup_app_l in Hi by done. done. }
      rewrite (drop_S _ _ _ Hi') in Hav, Hfuel |- *.
      rewrite clear_entries_cons in Hav, Hfuel |- *. simpl in Hav, Hfuel |- *.
      rewrite <- (routes_clear p Hty) in Hav, Hfuel |- *.
      destruct (routes ev p) eqn:Hp.
      * assert (Hg : JSMap.get p (subscribersMap st0) = Some r).
        { destruct Hwf0 as (Hk & _). apply elem_get; [done|].
          by apply list_elem_of_lookup_2 in Hi'. }
        destruct (wf_get_is_Some _ _ _ Hwf0 Hg) as (es & Hes & _).
        rewrite Hes in Hav, Hfuel |- *. simpl in Hav, Hfuel |- *.
        rewrite commands_of_app, length_app in Hfuel.
        assert (Hav1 : ∀ c, c ∈ JSSet.members es →
                            Forall (avoids ev st0) (handler c ev))
          by (intros; apply Hav; rewrite elem_of_app; auto).
        pose proof (heap_length_bound _ _ _ Hes) as Hlen.
        rewrite (Set_forEach_discreet _ _ _ _ _ es p), drop_0;
          [|done..| |lia]; [|by rewrite drop_0].
        unfold SnapshotDesign.lookup_forEach.
        rewrite (undisturbed_subscribers st p) by done.
        rewrite (subscribers_get st0 p r es) by done.
        rewrite invoke_all_app.
        pose proof (undisturbed_invoke_all (JSSet.members es) st cs Hund Hav1)
          as Hund1.
        pose proof (length_map_invoke_all (JSSet.members es) st cs) as Hgrow.
        destruct (SnapshotDesign.invoke_all handler (JSSet.members es) ev st cs)
          as [st1 cs1]. simpl in Hund1, Hgrow |- *.
        apply IH; [done| |lia].
        intros; apply Hav; rewrite elem_of_app; auto.
      * simpl in *. apply IH; [done..|lia].
    + assert (Hp : routes ev p = false).
      { rewrite Hm, lookup_app_r in Hi by lia.
        apply list_elem_of_lookup_2 in Hi. rewrite Forall_forall in Hex.
        by apply Hex in Hi. }
      rewrite Hp. rewrite drop_ge in Hav, Hfuel |- * by lia.
      specialize (IH (S i) st cs Hund).
      rewrite drop_ge in IH by lia. apply IH; [done|]. simpl in *. lia.
  - apply lookup_ge_None in Hi.
    assert (length (subscribersMap st0) ≤ i).
    { rewrite Hm, length_app in Hi. lia. }
    by rewrite drop_ge by done.
Qed.

End Discreet.

Lemma quiet_discreet
    (handler : Callback → StorageEvent → list Storage.Command)
    (ev : StorageEvent) (st : Router) :
  quiet handler ev st → discreet handler ev st.
Proof. intros Hq c Hc. rewrite (Hq c Hc). constructor. Qed.

(** The dispatch as the code performs it and as the snapshot design would,
    when the callbacks leave the routed sets alone. *)
Lemma notify_discreet
    (handler : Callback → StorageEvent → list Storage.Command) (fuel : nat)
    (ev : StorageEvent) (st : Router) (cs : Calls) :
  wf st → discreet handler ev st → dispatch_fuel handler ev st < fuel →
  Storage._notify handler fuel ev st cs
  = Some (SnapshotDesign.invoke_all handler (matched ev st) ev st cs)
  ∧ SnapshotDesign.notify_snapshot handler fuel ev st cs
    = Some (SnapshotDesign.invoke_all handler (matched ev st) ev st cs).
Proof.
  unfold discreet, dispatch_fuel, matched. intros Hwf Hd Hfuel.
  destruct (decide (type ev = ActionClear)) as [Hty|Hty].
  - rewrite <- clear_entries_matched in * by done.
    unfold Storage._notify, SnapshotDesign.notify_snapshot.
    rewrite !decide_True by done.
    pose proof (Map_forEach_discreet handler ev st fuel 0 st cs Hwf Hty
                  (undisturbed_refl ev st Hwf)) as H.
    rewrite drop_0 in H. apply H; [done|].
    unfold dispatch_bound in Hfuel. lia.
  - apply notify_discreet_keyed; [done..|lia].
Qed.

Lemma notify_discreet_result
    (handler : Callback → StorageEvent → list Storage.Command) (fuel : nat)
    (ev : StorageEvent) (st : Router) (cs : Calls) :
  wf st → discreet handler ev st → dispatch_fuel handler ev st < fuel →
  Storage._notify handler fuel ev st cs
  = Some (Storage.run_commands (commands_of handler ev (matched ev st)) st,
          cs ++ calls_of ev (matched ev st)).
Proof.
  intros Hwf Hd Hfuel.
  destruct (notify_discreet handler fuel ev st cs Hwf Hd Hfuel) as [-> _].
  f_equal. rewrite (surjective_pairing (SnapshotDesign.invoke_all _ _ _ _ _)).
  by rewrite invoke_all_state, invoke_all_calls.
Qed.

(** * Sample storages are well formed *)

Lemma wf_listen (subs : list (string * Callback)) (st : Router) :
  wf st → wf (listen subs st).
Proof.
  revert st. induction subs as [|[p c] subs IH]; intros st Hwf; [done|].
  apply IH. by apply wf_addEventListener.
Qed.

Lemma discreet_silent (ev : StorageEvent) (st : Router) :
  discreet silent ev st.
Proof. intros c _. constructor. Qed.

Lemma discreet_sideways : discreet sideways products_set products_router.
Proof.
  intros c Hc.
  assert (Hcases : c = 1 ∨ c = 3 ∨ c = 4).
  { change (c ∈ [1; 3; 4]) in Hc. rewrite !elem_of_cons in Hc.
    destruct Hc as [?|[?|[?|Hnil]]]; auto. by apply elem_of_nil in Hnil. }
  destruct Hcases as [Hc1|[Hc1|Hc1]]; subst c; repeat constructor.
Qed.

(** * Routing of [set] and [delete] events *)

(** C1. A [set] or [delete] event on key [k] is routed to the subscribers of
    ["k:action"], then of ["*:action"], then of ["k:*"], and to no other
    callback. When [k] is not ["*"], a callback that is registered under no
    pattern other than ["*:*"] is not invoked. (The callbacks may subscribe
    and unsubscribe while they run, under patterns other than these
    three.) *)
Theorem notify_three_candidates
    (handler : Callback → StorageEvent → list Storage.Command) (fuel : nat)
    (a : StorageAction) (k : string) (v : JSValue) (st : Router) (cs : Calls) :
  let ev := mkEvent a (Some k) v in
  let routed :=
    Storage.subscribers (k +:+ ":" +:+ action_string a) st
    ++ Storage.subscribers ("*:" +:+ action_string a) st
    ++ Storage.subscribers (k +:+ ":*") st in
  a ≠ ActionClear →
  wf st →
  discreet handler ev st →
  dispatch_fuel handler ev st < fuel →
  Storage._notify handler fuel ev st cs
  = Some (Storage.run_commands (commands_of handler ev routed) st,
          cs ++ calls_of ev routed)
  ∧ (k ≠ "*" →
     ∀ c, (∀ p, p ≠ "*:*" → c ∉ Storage.subscribers p st) →
          (c ∉ routed) ∧ invocations c (calls_of ev routed) = 0).
Proof.
  intros ev routed Ha Hwf Hd Hfuel. split.
  - rewrite notify_discreet_result by done.
    by rewrite matched_keyed by done.
  - intros Hk c Hc.
    assert (Hnin : c ∉ routed).
    { unfold routed. rewrite !elem_of_app. intros [H|[H|H]]; revert H; apply Hc.
      - by apply candidate_literal_action_ne.
      - apply candidate_wildcard_action_ne.
      - by apply candidate_literal_wildcard_ne. }
    split; [done|]. by apply invocations_absent.
Qed.

Lemma notify_three_candidates_witness :
  Storage._notify sideways 9 products_set products_router []
  = Some (Storage.run_commands
            [Storage.CmdAddEventListener "other:set" 9;
             Storage.CmdRemoveEventListener "*:*" 2] products_router,
          calls_of products_set [1; 3; 4])
  ∧ invocations 2 (calls_of products_set [1; 3; 4]) = 0.
Proof.
  pose proof (notify_three_candidates sideways 9 ActionSet "products"
                products_value products_router []) as H.
  destruct H as [H1 H2].
  - discriminate.
  - apply wf_listen, wf_empty.
  - apply discreet_sideways.
  - vm_compute. lia.
  - split; [exact H1|]. apply H2; [discriminate|].
    intros p Hp. unfold Storage.subscribers. vm_compute subscribersMap.
    cbn [JSMap.get].
    destruct (String.eqb_spec "products:set" p); [vm_compute; absent|].
    destruct (String.eqb_spec "*:*" p); [congruence|].
    destruct (String.eqb_spec "*:set" p); [vm_compute; absent|].
    destruct (String.eqb_spec "products:*" p); [vm_compute; absent|].
    apply not_elem_of_nil.
Defined.

(** * Routing of [clear] events *)

Lemma elem_of_clear_patterns (p : string) (st : Router) :
  p ∈ clear_patterns st
  ↔ p ∈ (subscribersMap st).*1
    ∧ (endsWith p ":*" = true ∨ endsWith p ":clear" = true).
Proof.
  unfold clear_patterns. rewrite list_elem_of_filter, orb_true_iff. tauto.
Qed.

Lemma subscribers_registered (c : Callback) (p : string) (st : Router) :
  c ∈ Storage.subscribers p st → p ∈ (subscribersMap st).*1.
Proof.
  unfold Storage.subscribers.
  destruct (JSMap.get p (subscribersMap st)) as [r|] eqn:Hg.
  - intros _. apply get_Some_elem in Hg.
    apply list_elem_of_fmap. by exists (p, r).
  - by intros ?%elem_of_nil.
Qed.

(** C2. A [clear] event walks the registered patterns in registration order
    and invokes the subscribers of exactly those that end with [":*"] or
    [":clear"], whatever their key token; a pattern that ends with [":set"]
    or [":delete"] is not among them. (The callbacks may subscribe and
    unsubscribe while they run, under patterns that end otherwise.) *)
Theorem notify_clear_by_suffix
    (handler : Callback → StorageEvent → list Storage.Command) (fuel : nat)
    (ev : StorageEvent) (st : Router) (cs : Calls) :
  let routed := clear_patterns st ≫= λ p, Storage.subscribers p st in
  type ev = ActionClear →
  wf st →
  discreet handler ev st →
  dispatch_fuel handler ev st < fuel →
  Storage._notify handler fuel ev st cs
  = Some (Storage.run_commands (commands_of handler ev routed) st,
          cs ++ calls_of ev routed)
  ∧ (∀ p, p ∈ clear_patterns st
          ↔ p ∈ (subscribersMap st).*1
            ∧ (endsWith p ":*" = true ∨ endsWith p ":clear" = true))
  ∧ (∀ p, endsWith p ":set" = true ∨ endsWith p ":delete" = true →
          p ∉ clear_patterns st)
  ∧ (∀ c, c ∈ routed
          ↔ ∃ p, (endsWith p ":*" = true ∨ endsWith p ":clear" = true)
                 ∧ c ∈ Storage.subscribers p st).
Proof.
  intros routed Hty Hwf Hd Hfuel. split_and!.
  - rewrite notify_discreet_result by done.
    by rewrite matched_clear by done.
  - intros p. apply elem_of_clear_patterns.
  - intros p Hp [_ Hin]%elem_of_clear_patterns.
    assert (Hfalse : endsWith p ":*" || endsWith p ":clear" = false).
    { destruct Hp; [by apply endsWith_set_not_clear
                   |by apply endsWith_delete_not_clear]. }
    apply orb_false_elim in Hfalse as [H1 H2]. destruct Hin; congruence.
  - intros c. unfold routed. rewrite list_elem_of_bind. split.
    + intros (p & Hc & [_ Hp]%elem_of_clear_patterns). by exists p.
    + intros (p & Hp & Hc). exists p. split; [done|].
      apply elem_of_clear_patterns. split; [|done].
      by eapply subscribers_registered.
Qed.

Lemma notify_clear_by_suffix_witness :
  Storage._notify silent 9 clear_event mixed_router []
  = Some (mixed_router, calls_of clear_event [1; 2; 3; 4])
  ∧ "someKey:set" ∉ clear_patterns mixed_router.
Proof.
  pose proof (notify_clear_by_suffix silent 9 clear_event mixed_router []) as H.
  destruct H as (H1 & _ & H3 & _).
  - reflexivity.
  - apply wf_listen, wf_empty.
  - apply discreet_silent.
  - vm_compute. lia.
  - split; [exact H1|]. apply H3. by left.
Defined.

(** At this input the code and the snapshot design part ways: callback 1
    unsubscribes callback 2 before the walk reaches it, and callback 3
    subscribes callback 4 to the set that is being walked. *)
Lemma notify_is_not_snapshot :
  snd <$> Storage._notify reentrant 9 k_set router_1_2 []
  = Some (calls_of k_set [1])
  ∧ snd <$> SnapshotDesign.notify_snapshot reentrant 9 k_set router_1_2 []
    = Some (calls_of k_set [1; 2])
  ∧ snd <$> Storage._notify reentrant 9 k_set router_3 []
    = Some (calls_of k_set [3; 4])
  ∧ snd <$> SnapshotDesign.notify_snapshot reentrant 9 k_set router_3 []
    = Some (calls_of k_set [3]).
Proof. by vm_compute. Qed.

(** C3, amended. The code walks the live subscriber sets, not copies. A
    callback that subscribes or unsubscribes while the dispatch is in
    progress does not change which callbacks that dispatch invokes, and the
    code agrees with the snapshot design, as long as it does so under
    patterns that the event is not routed to (callbacks that do neither
    are a case of this). The dispatch then invokes the callbacks that were
    registered when it started. *)
Theorem notify_live_unless_disturbed
    (handler : Callback → StorageEvent → list Storage.Command) (fuel : nat)
    (ev : StorageEvent) (st : Router) (cs : Calls) :
  wf st →
  discreet handler ev st →
  dispatch_fuel handler ev st < fuel →
  Storage._notify handler fuel ev st cs
  = Some (Storage.run_commands (commands_of handler ev (matched ev st)) st,
          cs ++ calls_of ev (matched ev st))
  ∧ SnapshotDesign.notify_snapshot handler fuel ev st cs
    = Storage._notify handler fuel ev st cs.
Proof.
  intros Hwf Hd Hfuel. split; [by apply notify_discreet_result|].
  by destruct (notify_discreet handler fuel ev st cs Hwf Hd Hfuel) as [-> ->].
Qed.

Lemma notify_live_unless_disturbed_witness :
  Storage._notify sideways 9 products_set products_router []
  = Some (Storage.run_commands
            [Storage.CmdAddEventListener "other:set" 9;
             Storage.CmdRemoveEventListener "*:*" 2] products_router,
          [] ++ calls_of products_set [1; 3; 4])
  ∧ SnapshotDesign.notify_snapshot sideways 9 products_set products_router []
    = Storage._notify sideways 9 products_set products_router [].
Proof.
  apply (notify_live_unless_disturbed sideways 9 products_set products_router []).
  - apply wf_listen, wf_empty.
  - apply discreet_sideways.
  - vm_compute. lia.
Defined.

(** * The closure returned by [addEventListener] *)

(** C4. The closure returned by [addEventListener(p, c)], called at any
    later time (after any subscription operations [cmds]), removes [c] from
    the set of [p] and nothing else: the other members of that set, the
    sets of the other patterns, every other [Set] object and the map
    itself stay as they were; calling it once more changes nothing. *)
Theorem unsubscribe_closure
    (p : string) (c : Callback) (st : Router) (cmds : list Storage.Command) :
  wf st →
  let u := (Storage.addEventListener p c st).1 in
  let st1 := (Storage.addEventListener p c st).2 in
  let st2 := Storage.run_commands cmds st1 in
  let st3 := Storage.unsubscribe u st2 in
  c ∈ Storage.subscribers p st1
  ∧ Storage.subscribers p st3 = filter (λ x, x ≠ c) (Storage.subscribers p st2)
  ∧ (∀ q, q ≠ p → Storage.subscribers q st3 = Storage.subscribers q st2)
  ∧ subscribersMap st3 = subscribersMap st2
  ∧ (∀ r, r ≠ subscribersSet u → heap st3 !! r = heap st2 !! r)
  ∧ Storage.unsubscribe u st3 = st3.
Proof.
  intros Hwf u st1 st2 st3.
  destruct (addEventListener_get st p c Hwf) as (Hg & Hcb & Hin).
  fold u st1 in Hg, Hcb, Hin.
  assert (Hwf2 : wf st2) by (by apply wf_run_commands, wf_addEventListener).
  assert (Hg2 : JSMap.get p (subscribersMap st2) = Some (subscribersSet u))
    by (by apply get_run_commands).
  unfold st3, Storage.unsubscribe. rewrite Hcb. split_and!.
  - done.
  - by apply subscribers_heap_delete_same.
  - intros q Hq. by eapply subscribers_heap_delete_other.
  - apply heap_delete_map.
  - intros r Hr. by apply heap_delete_other.
  - by apply heap_delete_idemp.
Qed.

Lemma unsubscribe_closure_witness :
  let u := (Storage.addEventListener "products:*" 7 products_router).1 in
  let st2 :=
    Storage.run_commands
      [Storage.CmdAddEventListener "products:*" 8;
       Storage.CmdRemoveEventListener "*:*" 2]
      (Storage.addEventListener "products:*" 7 products_router).2 in
  Storage.subscribers "products:*" st2 = [4; 7; 8]
  ∧ Storage.subscribers "products:*" (Storage.unsubscribe u st2) = [4; 8]
  ∧ Storage.unsubscribe u (Storage.unsubscribe u st2) = Storage.unsubscribe u st2.
Proof.
  pose proof (unsubscribe_closure "products:*" 7 products_router
                [Storage.CmdAddEventListener "products:*" 8;
                 Storage.CmdRemoveEventListener "*:*" 2]) as H.
  destruct H as (_ & H2 & _ & _ & _ & H6).
  - apply wf_listen, wf_empty.
  - split_and!; [reflexivity|exact H2|exact H6].
Defined.

(** * The facade *)

Section Facade.

Import Storage.

Context {M : Type} {provider : StorageProvider M}.
Variable handler : Callback → StorageEvent → list Command.
Variable options : StorageOptions.

Implicit Types (k : string) (v : JSValue) (w : World M).

(** A call that returns has delegated to the provider and dispatched one
    event that carries the provider's answer. *)
Lemma set_inv fuel k v w out w' :
  set handler options fuel k v w = Some (out, w') →
  out = (provider_set k v options (medium w)).1
  ∧ medium w' = (provider_set k v options (medium w)).2
  ∧ _notify handler fuel (mkEvent ActionSet (Some k) out) (router w) (calls w)
    = Some (router w', calls w').
Proof.
  unfold set. destruct (provider_set k v options (medium w)) as [nv m].
  destruct (_notify _ _ _ _ _) as [[st cs]|] eqn:Hn; [|done].
  intros [= <- <-]. done.
Qed.

Lemma delete_inv fuel k w out w' :
  delete handler options fuel k w = Some (out, w') →
  out = (provider_delete k options (medium w)).1
  ∧ medium w' = (provider_delete k options (medium w)).2
  ∧ _notify handler fuel (mkEvent ActionDelete (Some k) out) (router w) (calls w)
    = Some (router w', calls w').
Proof.
  unfold delete. destruct (provider_delete k options (medium w)) as [ov m].
  destruct (_notify _ _ _ _ _) as [[st cs]|] eqn:Hn; [|done].
  intros [= <- <-]. done.
Qed.

(** The storage after the dispatch of [ev]. *)
Lemma set_discreet fuel k v w :
  let ev := mkEvent ActionSet (Some k) (provider_set k v options (medium w)).1 in
  wf (router w) → discreet handler ev (router w) →
  dispatch_fuel handler ev (router w) < fuel →
  set handler options fuel k v w
  = Some ((provider_set k v options (medium w)).1,
          mkWorld (provider_set k v options (medium w)).2
            (run_commands (commands_of handler ev (matched ev (router w)))
                          (router w))
            (calls w ++ calls_of ev (matched ev (router w)))).
Proof.
  intros ev Hwf Hd Hfuel. unfold set.
  destruct (provider_set k v options (medium w)) as [nv m]. simpl in *.
  by rewrite notify_discreet_result.
Qed.

Lemma delete_discreet fuel k w :
  let ev := mkEvent ActionDelete (Some k) (provider_delete k options (medium w)).1 in
  wf (router w) → discreet handler ev (router w) →
  dispatch_fuel handler ev (router w) < fuel →
  delete handler options fuel k w
  = Some ((provider_delete k options (medium w)).1,
          mkWorld (provider_delete k options (medium w)).2
            (run_commands (commands_of handler ev (matched ev (router w)))
                          (router w))
            (calls w ++ calls_of ev (matched ev (router w)))).
Proof.
  intros ev Hwf Hd Hfuel. unfold delete.
  destruct (provider_delete k options (medium w)) as [ov m]. simpl in *.
  by rewrite notify_discreet_result.
Qed.

Lemma clear_discreet fuel w :
  let ev := mkEvent ActionClear None JUndefined in
  wf (router w) → discreet handler ev (router w) →
  dispatch_fuel handler ev (router w) < fuel →
  clear handler options fuel w
  = Some (mkWorld (provider_clear options (medium w))
            (run_commands (commands_of handler ev (matched ev (router w)))
                          (router w))
            (calls w ++ calls_of ev (matched ev (router w)))).
Proof.
  intros ev Hwf Hd Hfuel. unfold clear. by rewrite notify_discreet_result.
Qed.

End Facade.

(** * One invocation per matching pattern *)

(** C5. For a key [k] other than ["*"], a callback registered under
    ["k:set"] and under ["*:set"] is invoked by one [set(k, v)] once for
    each of the two patterns, each time with the [set] event of that call:
    the matched sets are walked one after the other, without deduplication.
    That makes exactly two invocations for a callback registered under
    these two patterns; one that is registered under ["k:*"] as well is
    invoked a third time, for that pattern. (The callbacks may subscribe
    and unsubscribe while they run, under patterns other than these
    three.) *)
Theorem set_invokes_twice {M : Type} {provider : StorageProvider M}
    (handler : Callback → StorageEvent → list Storage.Command)
    (options : StorageOptions) (fuel : nat) (k : string) (v : JSValue)
    (w : Storage.World M) (c : Callback) :
  let newValue := (provider_set k v options (Storage.medium w)).1 in
  let ev := mkEvent ActionSet (Some k) newValue in
  k ≠ "*" →
  wf (Storage.router w) →
  c ∈ Storage.subscribers (k +:+ ":set") (Storage.router w) →
  c ∈ Storage.subscribers "*:set" (Storage.router w) →
  discreet handler ev (Storage.router w) →
  dispatch_fuel handler ev (Storage.router w) < fuel →
  ∃ w' new,
    Storage.set handler options fuel k v w = Some (newValue, w')
    ∧ Storage.calls w' = Storage.calls w ++ new
    ∧ (c ∉ Storage.subscribers (k +:+ ":*") (Storage.router w) →
       invocations c new = 2)
    ∧ invocations c new
      = 2 + (if decide (c ∈ Storage.subscribers (k +:+ ":*") (Storage.router w))
             then 1 else 0)
    ∧ (∀ e, (c, e) ∈ new → e = ev).
Proof.
  intros newValue ev Hk Hwf H1 H2 Hd Hfuel.
  set (routed :=
         Storage.subscribers (k +:+ ":set") (Storage.router w)
         ++ Storage.subscribers "*:set" (Storage.router w)
         ++ Storage.subscribers (k +:+ ":*") (Storage.router w)).
  assert (Hcount :
    invocations c (calls_of ev routed)
    = 2 + (if decide (c ∈ Storage.subscribers (k +:+ ":*") (Storage.router w))
           then 1 else 0)).
  { unfold routed. rewrite !calls_of_app, !invocations_app.
    rewrite !invocations_NoDup by (by apply subscribers_NoDup).
    by rewrite !decide_True by done. }
  exists (Storage.mkWorld (provider_set k v options (Storage.medium w)).2
            (Storage.run_commands (commands_of handler ev routed)
                                  (Storage.router w))
            (Storage.calls w ++ calls_of ev routed)),
         (calls_of ev routed).
  split_and!.
  - rewrite set_discreet by done. by rewrite matched_keyed by done.
  - done.
  - intros H3. rewrite Hcount. by rewrite decide_False.
  - exact Hcount.
  - by intros e [-> _]%calls_of_event.
Qed.

Lemma set_invokes_twice_witness :
  ∃ w' new,
    Storage.set silent plain_options 9 "products" (JBool true)
      (Storage.mkWorld (browser [])
         (listen [("products:set", 1); ("*:set", 1); ("*:set", 2)] emptyRouter)
         [])
    = Some (JBool true, w')
    ∧ Storage.calls w' = [] ++ new
    ∧ invocations 1 new = 2.
Proof.
  assert (Hwf : wf (listen [("products:set", 1); ("*:set", 1); ("*:set", 2)]
                           emptyRouter)) by apply wf_listen, wf_empty.
  destruct (set_invokes_twice silent plain_options 9 "products" (JBool true)
              (Storage.mkWorld (browser [])
                 (listen [("products:set", 1); ("*:set", 1); ("*:set", 2)]
                         emptyRouter) []) 1
              ltac:(discriminate) Hwf
              ltac:(vm_compute; present) ltac:(vm_compute; present)
              (discreet_silent _ _) ltac:(vm_compute; lia))
    as (w' & new & Hset & Hcalls & Htwice & _).
  exists w', new. split_and!; [exact Hset|exact Hcalls|].
  apply Htwice. vm_compute. absent.
Defined.

(** C9. When the key is the string ["*"], the first and the second
    candidate pattern are the same string ["*:action"] and the third is
    ["*:*"]: the subscribers of ["*:action"] are walked twice and those of
    ["*:*"] once, so a callback is invoked twice for each of the first and
    once for the second. (The callbacks may subscribe and unsubscribe while
    they run, under patterns other than these.) *)
Theorem star_key_collapses
    (handler : Callback → StorageEvent → list Storage.Command) (fuel : nat)
    (a : StorageAction) (v : JSValue) (st : Router) (cs : Calls) :
  let ev := mkEvent a (Some "*") v in
  let wildcard_action := Storage.subscribers ("*:" +:+ action_string a) st in
  let wildcard_wildcard := Storage.subscribers "*:*" st in
  let routed := wildcard_action ++ wildcard_action ++ wildcard_wildcard in
  a ≠ ActionClear →
  wf st →
  discreet handler ev st →
  dispatch_fuel handler ev st < fuel →
  Storage._notify handler fuel ev st cs
  = Some (Storage.run_commands (commands_of handler ev routed) st,
          cs ++ calls_of ev routed)
  ∧ (∀ c, invocations c (calls_of ev routed)
          = 2 * (if decide (c ∈ wildcard_action) then 1 else 0)
            + (if decide (c ∈ wildcard_wildcard) then 1 else 0)).
Proof.
  intros ev wa ww routed Ha Hwf Hd Hfuel. split.
  - rewrite notify_discreet_result by done.
    by rewrite matched_keyed by done.
  - intros c. unfold routed.
    rewrite !calls_of_app, !invocations_app.
    rewrite !invocations_NoDup by (by apply subscribers_NoDup). lia.
Qed.

Lemma star_key_collapses_witness :
  Storage._notify silent 9 (mkEvent ActionDelete (Some "*") JNull)
    (listen [("*:*", 1); ("*:delete", 2); ("*:set", 3)] emptyRouter) []
  = Some (listen [("*:*", 1); ("*:delete", 2); ("*:set", 3)] emptyRouter,
          calls_of (mkEvent ActionDelete (Some "*") JNull) [2; 2; 1])
  ∧ invocations 2 (calls_of (mkEvent ActionDelete (Some "*") JNull) [2; 2; 1]) = 2
  ∧ invocations 1 (calls_of (mkEvent ActionDelete (Some "*") JNull) [2; 2; 1]) = 1.
Proof.
  pose proof (star_key_collapses silent 9 ActionDelete JNull
                (listen [("*:*", 1); ("*:delete", 2); ("*:set", 3)] emptyRouter)
                []) as H.
  destruct H as [H1 H2].
  - discriminate.
  - apply wf_listen, wf_empty.
  - apply discreet_silent.
  - vm_compute. lia.
  - split_and!; [exact H1|exact (H2 2)|exact (H2 1)].
Defined.

(** * The [localStorage] provider *)

Section Provider.

Variable options : StorageOptions.

Implicit Types (k : string) (v : JSValue) (h : Host).

(** What [get] reads after [set]: the stored text, parsed. *)
Lemma provider_get_set k v h :
  window_defined h = true →
  LocalStorageProvider.get k options (LocalStorageProvider.set k v options h).2
  = parse (jsonSerializer options)
          (DOMString (stringify (jsonSerializer options) v)).
Proof.
  intros Hw. unfold LocalStorageProvider.set, LocalStorageProvider.get.
  rewrite Hw. simpl. rewrite Hw. simpl.
  unfold localStorage.getItem. simpl. by rewrite lookup_insert_eq.
Qed.

Lemma provider_set_value k v h :
  window_defined h = true → (LocalStorageProvider.set k v options h).1 = v.
Proof. intros Hw. unfold LocalStorageProvider.set. by rewrite Hw. Qed.

Lemma provider_get_stored k s h :
  window_defined h = true →
  store h !! LocalStorageProvider.prefixedKey k options = Some s →
  LocalStorageProvider.get k options h = parse (jsonSerializer options) s.
Proof.
  intros Hw Hs. unfold LocalStorageProvider.get, localStorage.getItem.
  by rewrite Hw, Hs.
Qed.

Lemma provider_delete_value k h :
  window_defined h = true →
  (LocalStorageProvider.delete k options h).1
  = LocalStorageProvider.get k options h.
Proof. intros Hw. unfold LocalStorageProvider.delete. by rewrite Hw. Qed.

Lemma provider_get_delete k h :
  LocalStorageProvider.get k options (LocalStorageProvider.delete k options h).2
  = JNull.
Proof.
  unfold LocalStorageProvider.delete, LocalStorageProvider.get.
  destruct (window_defined h) eqn:Hw; simpl; rewrite Hw; simpl; [|done].
  unfold localStorage.getItem. simpl. by rewrite lookup_delete_eq.
Qed.

(** [delete] right after [set] returns what [get] would have. *)
Lemma provider_delete_set k v h :
  window_defined h = true →
  (LocalStorageProvider.delete k options
     (LocalStorageProvider.set k v options h).2).1
  = parse (jsonSerializer options)
          (DOMString (stringify (jsonSerializer options) v)).
Proof.
  intros Hw. rewrite provider_delete_value.
  - by apply provider_get_set.
  - unfold LocalStorageProvider.set. by rewrite Hw.
Qed.

Lemma provider_no_window k v h :
  window_defined h = false →
  LocalStorageProvider.get k options h = JNull
  ∧ LocalStorageProvider.set k v options h = (JNull, h)
  ∧ LocalStorageProvider.delete k options h = (JNull, h)
  ∧ LocalStorageProvider.clear options h = h.
Proof.
  intros Hw.
  unfold LocalStorageProvider.get, LocalStorageProvider.set,
    LocalStorageProvider.delete, LocalStorageProvider.clear.
  by rewrite Hw.
Qed.

(** With the default serializer, [undefined] is stored as the text
    ["undefined"] and read back as [null], on every host whose [JSON]
    behaves as ECMAScript's does on [undefined]. *)
Lemma default_serializer_loses_undefined (J : JSONObject) k h :
  jsonSerializer options = defaultJSONSerializer J →
  JSON_stringify J JUndefined = None →
  JSON_parse J "undefined" = None →
  window_defined h = true →
  LocalStorageProvider.get k options
    (LocalStorageProvider.set k JUndefined options h).2 = JNull.
Proof.
  intros Hj Hs Hp Hw. rewrite provider_get_set by done.
  rewrite Hj. simpl. rewrite Hs. simpl. by rewrite Hp.
Qed.

End Provider.

(** At this input [get] does not return what [set] stored: the default
    serializer turns [undefined] into the text ["undefined"], which does not
    parse. *)
Lemma set_then_get_loses_undefined :
  (λ r, (r.1, Storage.get plain_options "token" r.2))
    <$> Storage.set silent plain_options 1 "token" JUndefined
          (Storage.mkWorld (browser []) emptyRouter [])
  = Some (JUndefined, JNull).
Proof. by vm_compute. Qed.

(** C6, amended. On an available medium, [get(k)] after [set(k, v)] returns
    the serializer's [parse] of its [stringify] of [v]; this is [v] for the
    values that this round trip gives back. *)
Theorem set_then_get
    (handler : Callback → StorageEvent → list Storage.Command)
    (options : StorageOptions) (fuel : nat) (k : string) (v : JSValue)
    (w : Storage.World Host) :
  window_defined (Storage.medium w) = true →
  let back :=
    parse (jsonSerializer options)
          (DOMString (stringify (jsonSerializer options) v)) in
  (∀ out w', Storage.set handler options fuel k v w = Some (out, w') →
             out = v
             ∧ Storage.get options k w' = back
             ∧ (back = v → Storage.get options k w' = v))
  ∧ (wf (Storage.router w) →
     discreet handler (mkEvent ActionSet (Some k) v) (Storage.router w) →
     dispatch_fuel handler (mkEvent ActionSet (Some k) v) (Storage.router w)
     < fuel →
     ∃ w', Storage.set handler options fuel k v w = Some (v, w')
           ∧ Storage.get options k w' = back
           ∧ (back = v → Storage.get options k w' = v)).
Proof.
  intros Hw back.
  assert (Hget : ∀ w' : Storage.World Host,
            Storage.medium w'
            = (LocalStorageProvider.set k v options (Storage.medium w)).2 →
            Storage.get options k w' = back).
  { intros w' Hm. unfold Storage.get. simpl. rewrite Hm.
    by rewrite provider_get_set. }
  split.
  - intros out w' (Hout & Hm & _)%set_inv. simpl in Hout, Hm.
    rewrite provider_set_value in Hout by done.
    split_and!; [done|by apply Hget|].
    intros Hb. etransitivity; [by apply Hget|exact Hb].
  - intros Hwf Hd Hfuel.
    pose proof (set_discreet handler options fuel k v w) as Hs. simpl in Hs.
    rewrite provider_set_value in Hs by done.
    rewrite Hs by done. eexists.
    split_and!; [done|by apply Hget|].
    intros Hb. etransitivity; [by apply Hget|exact Hb].
Qed.

Lemma set_then_get_witness :
  ∃ w', Storage.set sideways prefixed_options 9 "products" (JBool true)
          (Storage.mkWorld (browser []) products_router [])
        = Some (JBool true, w')
        ∧ Storage.get prefixed_options "products" w' = JBool true.
Proof.
  pose proof (set_then_get sideways prefixed_options 9 "products" (JBool true)
                (Storage.mkWorld (browser []) products_router [])
                eq_refl) as H.
  cbv zeta in H. destruct H as [_ H].
  destruct H as (w' & Hset & _ & Hget).
  - apply wf_listen, wf_empty.
  - apply discreet_sideways.
  - vm_compute. lia.
  - exists w'. split; [exact Hset|]. apply Hget. reflexivity.
Defined.

(** C7. On an available medium, for a key with a stored text, [delete(k)]
    returns the value stored under [k], that is what [get(k)] returned
    before, and [get(k)] after it returns [null]. *)
Theorem delete_then_get
    (handler : Callback → StorageEvent → list Storage.Command)
    (options : StorageOptions) (fuel : nat) (k s : string)
    (w : Storage.World Host) :
  window_defined (Storage.medium w) = true →
  store (Storage.medium w) !! LocalStorageProvider.prefixedKey k options
  = Some s →
  let old := parse (jsonSerializer options) s in
  Storage.get options k w = old
  ∧ (∀ out w', Storage.delete handler options fuel k w = Some (out, w') →
               out = old ∧ Storage.get options k w' = JNull)
  ∧ (wf (Storage.router w) →
     discreet handler (mkEvent ActionDelete (Some k) old) (Storage.router w) →
     dispatch_fuel handler (mkEvent ActionDelete (Some k) old) (Storage.router w)
     < fuel →
     ∃ w', Storage.delete handler options fuel k w = Some (old, w')
           ∧ Storage.get options k w' = JNull).
Proof.
  intros Hw Hs old.
  assert (Hold : (LocalStorageProvider.delete k options (Storage.medium w)).1
                 = old).
  { rewrite provider_delete_value by done. by apply provider_get_stored. }
  assert (Hget : ∀ w' : Storage.World Host,
            Storage.medium w'
            = (LocalStorageProvider.delete k options (Storage.medium w)).2 →
            Storage.get options k w' = JNull).
  { intros w' Hm. unfold Storage.get. simpl. rewrite Hm.
    apply provider_get_delete. }
  split_and!.
  - unfold Storage.get. simpl. by apply provider_get_stored.
  - intros out w' (Hout & Hm & _)%delete_inv. simpl in Hout, Hm.
    rewrite Hold in Hout. split; [done|]. by apply Hget.
  - intros Hwf Hd Hfuel.
    pose proof (delete_discreet handler options fuel k w) as Hdel.
    simpl in Hdel. rewrite Hold in Hdel. rewrite Hdel by done.
    eexists. split; [done|]. by apply Hget.
Qed.

Lemma delete_then_get_witness :
  Storage.get prefixed_options "accessToken"
    (Storage.mkWorld (browser [("some-prefix:accessToken", "true")])
                     products_router [])
  = JBool true
  ∧ ∃ w', Storage.delete silent prefixed_options 9 "accessToken"
            (Storage.mkWorld (browser [("some-prefix:accessToken", "true")])
                             products_router [])
          = Some (JBool true, w')
          ∧ Storage.get prefixed_options "accessToken" w' = JNull.
Proof.
  pose proof (delete_then_get silent prefixed_options 9 "accessToken" "true"
                (Storage.mkWorld (browser [("some-prefix:accessToken", "true")])
                                 products_router [])) as H.
  destruct H as (H1 & _ & H3).
  - reflexivity.
  - by vm_compute.
  - split; [exact H1|]. apply H3.
    + apply wf_listen, wf_empty.
    + apply discreet_silent.
    + vm_compute. lia.
Defined.

(** C8. Without [window], [get], [set] and [delete] of the provider return
    [null] and [clear] returns, and none of them touches the medium. The
    four functions are total: none raises an error. *)
Theorem provider_unavailable
    (options : StorageOptions) (k : string) (v : JSValue) (h : Host) :
  window_defined h = false →
  LocalStorageProvider.get k options h = JNull
  ∧ LocalStorageProvider.set k v options h = (JNull, h)
  ∧ LocalStorageProvider.delete k options h = (JNull, h)
  ∧ LocalStorageProvider.clear options h = h.
Proof. apply provider_no_window. Qed.

Lemma provider_unavailable_witness :
  LocalStorageProvider.get "accessToken" prefixed_options server = JNull
  ∧ LocalStorageProvider.set "accessToken" (JBool true) prefixed_options server
    = (JNull, server)
  ∧ LocalStorageProvider.delete "accessToken" prefixed_options server
    = (JNull, server)
  ∧ LocalStorageProvider.clear prefixed_options server = server.
Proof.
  apply (provider_unavailable prefixed_options "accessToken" (JBool true) server).
  reflexivity.
Defined.

(** * Events without a medium *)

(** C10. Without [window] the provider stores and removes nothing, and the
    facade dispatches all the same: [set(k, v)] returns [null] and
    dispatches the [set] event of [k] with value [null], [delete(k)] the
    [delete] event of [k] with value [null], [clear()] the [clear] event;
    the medium is left as it was. Each call returns and has invoked every
    callback its event is routed to (the callbacks may subscribe and
    unsubscribe while they run, under patterns that the event is not
    routed to). *)
Theorem dispatch_without_medium
    (handler : Callback → StorageEvent → list Storage.Command)
    (options : StorageOptions) (fuel : nat) (k : string) (v : JSValue)
    (w : Storage.World Host) :
  window_defined (Storage.medium w) = false →
  let set_event := mkEvent ActionSet (Some k) JNull in
  let delete_event := mkEvent ActionDelete (Some k) JNull in
  let clear_ev := mkEvent ActionClear None JUndefined in
  let dispatched ev :=
    Storage._notify handler fuel ev (Storage.router w) (Storage.calls w) in
  let after ev :=
    Storage.mkWorld (Storage.medium w)
      (Storage.run_commands
         (commands_of handler ev (matched ev (Storage.router w)))
         (Storage.router w))
      (Storage.calls w ++ calls_of ev (matched ev (Storage.router w))) in
  (Storage.set handler options fuel k v w
   = (λ r, (JNull, Storage.mkWorld (Storage.medium w) r.1 r.2))
       <$> dispatched set_event
   ∧ Storage.delete handler options fuel k w
     = (λ r, (JNull, Storage.mkWorld (Storage.medium w) r.1 r.2))
         <$> dispatched delete_event
   ∧ Storage.clear handler options fuel w
     = (λ r, Storage.mkWorld (Storage.medium w) r.1 r.2)
         <$> dispatched clear_ev)
  ∧ (wf (Storage.router w) →
     (∀ ev, discreet handler ev (Storage.router w)
            ∧ dispatch_fuel handler ev (Storage.router w) < fuel) →
     Storage.set handler options fuel k v w = Some (JNull, after set_event)
     ∧ Storage.delete handler options fuel k w = Some (JNull, after delete_event)
     ∧ Storage.clear handler options fuel w = Some (after clear_ev)).
Proof.
  intros Hw set_event delete_event clear_ev dispatched after.
  destruct (provider_no_window options k v (Storage.medium w) Hw)
    as (_ & Hset & Hdel & Hclr).
  assert (Heqs :
    Storage.set handler options fuel k v w
    = (λ r, (JNull, Storage.mkWorld (Storage.medium w) r.1 r.2))
        <$> dispatched set_event
    ∧ Storage.delete handler options fuel k w
      = (λ r, (JNull, Storage.mkWorld (Storage.medium w) r.1 r.2))
          <$> dispatched delete_event
    ∧ Storage.clear handler options fuel w
      = (λ r, Storage.mkWorld (Storage.medium w) r.1 r.2)
          <$> dispatched clear_ev).
  { unfold Storage.set, Storage.delete, Storage.clear, dispatched. simpl.
    rewrite Hset, Hdel, Hclr. fold set_event delete_event clear_ev.
    split_and!.
    - by destruct (Storage._notify _ _ set_event _ _) as [[??]|].
    - by destruct (Storage._notify _ _ delete_event _ _) as [[??]|].
    - by destruct (Storage._notify _ _ clear_ev _ _) as [[??]|]. }
  split; [exact Heqs|]. intros Hwf Hd.
  destruct Heqs as (-> & -> & ->). unfold dispatched.
  rewrite !notify_discreet_result by (done || apply Hd). done.
Qed.

Lemma dispatch_without_medium_witness :
  Storage.set silent plain_options 9 "products" products_value
    (Storage.mkWorld server products_router [])
  = Some (JNull,
          Storage.mkWorld server products_router
            (calls_of (mkEvent ActionSet (Some "products") JNull) [1; 3; 4]))
  ∧ Storage.delete silent plain_options 9 "products"
      (Storage.mkWorld server products_router [])
    = Some (JNull,
            Storage.mkWorld server products_router
              (calls_of (mkEvent ActionDelete (Some "products") JNull) [4]))
  ∧ Storage.clear silent plain_options 9
      (Storage.mkWorld server products_router [])
    = Some (Storage.mkWorld server products_router
              (calls_of (mkEvent ActionClear None JUndefined) [2; 4])).
Proof.
  pose proof (dispatch_without_medium silent plain_options 9 "products"
                products_value (Storage.mkWorld server products_router []))
    as H.
  destruct H as [_ H].
  - reflexivity.
  - apply H.
    + apply wf_listen, wf_empty.
    + intros ev. split; [apply discreet_silent|].
      unfold dispatch_fuel, commands_of.
      assert (Hnone : ∀ l : list Callback, l ≫= (λ c, silent c ev) = [])
        by (induction l; [done|by rewrite bind_cons]).
      rewrite Hnone. vm_compute. lia.
Defined.

(** * Subscribing and unsubscribing *)

Section SubscriptionLaws.

Import Storage.

Implicit Types (p q : string) (c : Callback) (st : Router) (r : nat).

Lemma router_eta st :
  {| subscribersMap := subscribersMap st; heap := heap st |} = st.
Proof. by destruct st. Qed.

Lemma subscribers_addEventListener st p c :
  wf st →
  subscribers p (addEventListener p c st).2
  = if decide (c ∈ subscribers p st) then subscribers p st
    else subscribers p st ++ [c].
Proof.
  intros Hwf. destruct (JSMap.get p (subscribersMap st)) as [r|] eqn:Hg.
  - destruct (wf_get_is_Some _ _ _ Hwf Hg) as (es & Hes & _).
    rewrite (addEventListener_registered _ _ _ _ _ Hg Hes).
    unfold subscribers. simpl. rewrite Hg, Hes.
    rewrite list_lookup_insert_eq by (by apply lookup_lt_Some in Hes).
    apply members_add.
  - rewrite addEventListener_fresh by done. unfold subscribers. simpl.
    rewrite Hg, get_app_r by done. simpl. rewrite String.eqb_refl.
    rewrite lookup_app_r, Nat.sub_diag by done. simpl.
    done.
Qed.

Lemma subscribers_addEventListener_ne st p q c :
  wf st → q ≠ p →
  subscribers q (addEventListener p c st).2 = subscribers q st.
Proof.
  intros Hwf Hne. destruct (JSMap.get p (subscribersMap st)) as [r|] eqn:Hg.
  - destruct (wf_get_is_Some _ _ _ Hwf Hg) as (es & Hes & _).
    rewrite (addEventListener_registered _ _ _ _ _ Hg Hes).
    unfold subscribers. simpl.
    destruct (JSMap.get q (subscribersMap st)) as [rq|] eqn:Hq; [|done].
    rewrite list_lookup_insert_ne; [done|].
    intros ->. apply Hne. by eapply wf_get_inj.
  - rewrite addEventListener_fresh by done. unfold subscribers. simpl.
    destruct (JSMap.get q (subscribersMap st)) as [rq|] eqn:Hq.
    + rewrite (get_app_l _ _ _ _ Hq).
      rewrite lookup_app_l by (by eapply wf_get_lt). done.
    + rewrite get_app_r by done. simpl.
      destruct (String.eqb_spec p q) as [->|_]; done.
Qed.

Lemma addEventListener_idemp st p c :
  wf st →
  addEventListener p c (addEventListener p c st).2 = addEventListener p c st.
Proof.
  intros Hwf.
  destruct (addEventListener_get st p c Hwf) as (Hg & Hcb & Hin).
  pose proof (wf_addEventListener st p c Hwf) as Hwf'.
  destruct (addEventListener p c st) as [u st'] eqn:Hadd. simpl in *.
  destruct (wf_get_is_Some _ _ _ Hwf' Hg) as (es & Hes & _).
  rewrite (addEventListener_registered _ _ _ _ _ Hg Hes).
  rewrite (subscribers_get _ _ _ _ Hg Hes) in Hin.
  apply elem_of_members in Hin.
  unfold JSSet.add, JSSet.has. rewrite bool_decide_eq_true_2 by done.
  rewrite list_insert_id by done. rewrite router_eta.
  destruct u as [r' c']. simpl in *. by subst.
Qed.

Lemma removeEventListener_absent st p c :
  wf st → c ∉ subscribers p st → removeEventListener p c st = st.
Proof.
  intros Hwf Hnin. unfold removeEventListener.
  destruct (JSMap.get p (subscribersMap st)) as [r|] eqn:Hg; [|done].
  destruct (wf_get_is_Some _ _ _ Hwf Hg) as (es & Hes & _).
  rewrite (subscribers_get _ _ _ _ Hg Hes) in Hnin.
  unfold heap_delete. rewrite Hes, delete_absent by done.
  rewrite list_insert_id by done. apply router_eta.
Qed.

Lemma subscribers_removeEventListener st p c :
  wf st →
  subscribers p (removeEventListener p c st)
  = filter (λ x, x ≠ c) (subscribers p st).
Proof.
  intros Hwf. unfold removeEventListener.
  destruct (JSMap.get p (subscribersMap st)) as [r|] eqn:Hg.
  - by apply subscribers_heap_delete_same.
  - unfold subscribers. by rewrite Hg.
Qed.

Lemma subscribers_removeEventListener_ne st p q c :
  wf st → q ≠ p →
  subscribers q (removeEventListener p c st) = subscribers q st.
Proof.
  intros Hwf Hne. unfold removeEventListener.
  destruct (JSMap.get p (subscribersMap st)) as [r|] eqn:Hg; [|done].
  by eapply subscribers_heap_delete_other.
Qed.

Lemma filter_ne_singleton c : filter (λ x, x ≠ c) [c] = [].
Proof. by rewrite filter_cons_False by (intros H; by apply H). Qed.

End SubscriptionLaws.

Section Evolution.

Import Storage.

Variable handler : Callback → StorageEvent → list Command.

Lemma evolves_run_commands (st st' : Router) :
  evolves handler st st' → ∃ cmds, st' = run_commands cmds st.
Proof.
  induction 1 as [|cmd st' _ (cmds & ->)|fuel ev st' cs st'' cs' _ (cmds & ->) Hn].
  - by exists [].
  - exists (cmds ++ [cmd]). by rewrite run_commands_app.
  - apply notify_run_commands in Hn as (cmds' & ->).
    exists (cmds ++ cmds'). by rewrite run_commands_app.
Qed.

Lemma map_prefix_run_command (cmd : Command) (st : Router) :
  subscribersMap st `prefix_of` subscribersMap (run_command cmd st).
Proof.
  destruct cmd as [q c|q c|u]; simpl.
  - unfold addEventListener.
    destruct (JSMap.get q (subscribersMap st)) as [rq|] eqn:Hq.
    + rewrite set_existing by done. by destruct (heap st !! rq).
    + rewrite set_fresh by done.
      destruct ((heap st ++ [[]]) !! length (heap st)); simpl;
        by apply prefix_app_r.
  - unfold removeEventListener.
    destruct (JSMap.get q (subscribersMap st)); [|done].
    by rewrite heap_delete_map.
  - unfold unsubscribe. by rewrite heap_delete_map.
Qed.

Lemma map_prefix_run_commands (cmds : list Command) (st : Router) :
  subscribersMap st `prefix_of` subscribersMap (run_commands cmds st).
Proof.
  revert st. induction cmds as [|cmd cmds IH]; intros st; [done|].
  etransitivity; [apply (map_prefix_run_command cmd)|apply IH].
Qed.

End Evolution.

(** X1. [addEventListener(p, c)] puts [c] at the end of the set of [p]
    unless it is already in it, and leaves the set of every other pattern
    as it was; subscribing the same callback once more changes nothing and
    returns a closure over the same set and callback. *)
Theorem addEventListener_subscribes (p : string) (c : Callback) (st : Router) :
  wf st →
  let st' := (Storage.addEventListener p c st).2 in
  Storage.subscribers p st'
  = (if decide (c ∈ Storage.subscribers p st) then Storage.subscribers p st
     else Storage.subscribers p st ++ [c])
  ∧ (∀ q, q ≠ p → Storage.subscribers q st' = Storage.subscribers q st)
  ∧ Storage.addEventListener p c st' = Storage.addEventListener p c st.
Proof.
  intros Hwf st'. split_and!.
  - by apply subscribers_addEventListener.
  - intros q Hq. by apply subscribers_addEventListener_ne.
  - by apply addEventListener_idemp.
Qed.

Lemma addEventListener_subscribes_witness :
  Storage.subscribers "products:*"
    (Storage.addEventListener "products:*" 7 products_router).2 = [4; 7]
  ∧ Storage.subscribers "products:*"
      (Storage.addEventListener "products:*" 4 products_router).2 = [4]
  ∧ Storage.subscribers "*:set"
      (Storage.addEventListener "products:*" 7 products_router).2 = [3].
Proof.
  assert (Hwf : wf products_router) by apply wf_listen, wf_empty.
  destruct (addEventListener_subscribes "products:*" 7 products_router Hwf)
    as (H1 & H2 & _).
  destruct (addEventListener_subscribes "products:*" 4 products_router Hwf)
    as (H3 & _ & _).
  split_and!; [exact H1|exact H3|]. exact (H2 "*:set" ltac:(discriminate)).
Defined.

(** X2. [removeEventListener(p, c)] removes [c] from the set of [p] and
    nothing else: the order of the other members, the sets of the other
    patterns and the map are kept; it changes nothing at all when [c] is
    not subscribed under [p] (a pattern never registered included), and
    nothing more when called again. *)
Theorem removeEventListener_removes (p : string) (c : Callback) (st : Router) :
  wf st →
  let st' := Storage.removeEventListener p c st in
  Storage.subscribers p st' = filter (λ x, x ≠ c) (Storage.subscribers p st)
  ∧ (∀ q, q ≠ p → Storage.subscribers q st' = Storage.subscribers q st)
  ∧ subscribersMap st' = subscribersMap st
  ∧ (c ∉ Storage.subscribers p st → st' = st)
  ∧ Storage.removeEventListener p c st' = st'.
Proof.
  intros Hwf st'. split_and!.
  - by apply subscribers_removeEventListener.
  - intros q Hq. by apply subscribers_removeEventListener_ne.
  - unfold st', Storage.removeEventListener.
    destruct (JSMap.get p (subscribersMap st)); [|done]. apply heap_delete_map.
  - by apply removeEventListener_absent.
  - unfold st', Storage.removeEventListener.
    destruct (JSMap.get p (subscribersMap st)) as [r|] eqn:Hg.
    + rewrite heap_delete_map, Hg. by apply heap_delete_idemp.
    + by rewrite Hg.
Qed.

Lemma removeEventListener_removes_witness :
  Storage.subscribers "someKey:set"
    (Storage.removeEventListener "someKey:set" 5 mixed_router) = [1]
  ∧ Storage.removeEventListener "never:set" 5 mixed_router = mixed_router.
Proof.
  assert (Hwf : wf mixed_router) by apply wf_listen, wf_empty.
  destruct (removeEventListener_removes "someKey:set" 5 mixed_router Hwf)
    as (H1 & _).
  destruct (removeEventListener_removes "never:set" 5 mixed_router Hwf)
    as (_ & _ & _ & H4 & _).
  split; [exact H1|]. apply H4. apply not_elem_of_nil.
Defined.

(** X3. Calling the closure returned by [addEventListener(p, c)], at any
    later time (after any subscription operations and dispatches,
    whichever subscriptions the callbacks make and cancel), is calling
    [removeEventListener(p, c)]. *)
Theorem closure_is_removeEventListener
    (handler : Callback → StorageEvent → list Storage.Command)
    (p : string) (c : Callback) (st st2 : Router) :
  wf st →
  evolves handler (Storage.addEventListener p c st).2 st2 →
  Storage.unsubscribe (Storage.addEventListener p c st).1 st2
  = Storage.removeEventListener p c st2.
Proof.
  intros Hwf (cmds & ->)%evolves_run_commands.
  destruct (addEventListener_get st p c Hwf) as (Hg & Hcb & _).
  unfold Storage.unsubscribe, Storage.removeEventListener.
  rewrite (get_run_commands _ _ _ _ Hg). by rewrite Hcb.
Qed.

Lemma closure_is_removeEventListener_witness :
  Storage.unsubscribe (Storage.addEventListener "products:*" 7 products_router).1
    (Storage.run_command (Storage.CmdAddEventListener "other:set" 9)
       (Storage.addEventListener "products:*" 7 products_router).2)
  = Storage.removeEventListener "products:*" 7
      (Storage.run_command (Storage.CmdAddEventListener "other:set" 9)
         (Storage.addEventListener "products:*" 7 products_router).2).
Proof.
  apply (closure_is_removeEventListener silent "products:*" 7 products_router).
  - apply wf_listen, wf_empty.
  - apply evolves_command, evolves_refl.
Defined.

(** X4. Unsubscribing and subscribing compose as on a set that remembers
    insertion order: a callback that is removed and subscribed again is
    invoked last, and one that is subscribed and then removed is gone, so
    that subscribing and then removing a callback that was not subscribed
    leaves every pattern's subscribers as they were. *)
Theorem resubscribe_moves_to_end (p : string) (c : Callback) (st : Router) :
  wf st →
  let again :=
    (Storage.addEventListener p c (Storage.removeEventListener p c st)).2 in
  let gone :=
    Storage.removeEventListener p c (Storage.addEventListener p c st).2 in
  Storage.subscribers p again
  = filter (λ x, x ≠ c) (Storage.subscribers p st) ++ [c]
  ∧ Storage.subscribers p gone = filter (λ x, x ≠ c) (Storage.subscribers p st)
  ∧ (c ∉ Storage.subscribers p st →
     ∀ q, Storage.subscribers q gone = Storage.subscribers q st).
Proof.
  intros Hwf again gone.
  assert (Hgone : Storage.subscribers p gone
                  = filter (λ x, x ≠ c) (Storage.subscribers p st)).
  { unfold gone.
    rewrite subscribers_removeEventListener by (by apply wf_addEventListener).
    rewrite subscribers_addEventListener by done.
    case_decide; [done|].
    by rewrite filter_app, filter_ne_singleton, app_nil_r. }
  split_and!.
  - unfold again.
    rewrite subscribers_addEventListener by (by apply wf_removeEventListener).
    rewrite subscribers_removeEventListener by done.
    rewrite decide_False; [done|].
    rewrite list_elem_of_filter. intros [Hne _]. by apply Hne.
  - exact Hgone.
  - intros Hnin q. destruct (decide (q = p)) as [->|Hq].
    + rewrite Hgone. by apply filter_absent.
    + unfold gone.
      rewrite subscribers_removeEventListener_ne
        by (by try apply wf_addEventListener).
      by apply subscribers_addEventListener_ne.
Qed.

Lemma resubscribe_moves_to_end_witness :
  Storage.subscribers "someKey:set"
    (Storage.addEventListener "someKey:set" 5
       (Storage.removeEventListener "someKey:set" 5 mixed_router)).2 = [1; 5]
  ∧ Storage.subscribers "someKey:set"
      (Storage.removeEventListener "someKey:set" 9
         (Storage.addEventListener "someKey:set" 9 mixed_router).2) = [5; 1].
Proof.
  assert (Hwf : wf mixed_router) by apply wf_listen, wf_empty.
  destruct (resubscribe_moves_to_end "someKey:set" 5 mixed_router Hwf)
    as (H1 & _).
  destruct (resubscribe_moves_to_end "someKey:set" 9 mixed_router Hwf)
    as (_ & _ & H3).
  split; [exact H1|]. apply (H3 ltac:(vm_compute; absent) "someKey:set").
Defined.

(** X5. A pattern, once registered, stays registered, in its place and
    with its [Set] object: nothing that happens later, unsubscribing the
    last callback included, takes an entry out of the map. *)
Theorem patterns_stay_registered
    (handler : Callback → StorageEvent → list Storage.Command)
    (st st' : Router) :
  evolves handler st st' →
  subscribersMap st `prefix_of` subscribersMap st'
  ∧ (∀ p r, JSMap.get p (subscribersMap st) = Some r →
            JSMap.get p (subscribersMap st') = Some r).
Proof.
  intros (cmds & ->)%evolves_run_commands. split.
  - apply map_prefix_run_commands.
  - intros p r. apply get_run_commands.
Qed.

Lemma patterns_stay_registered_witness :
  subscribersMap router_3
  `prefix_of` subscribersMap (Storage.removeEventListener "k:set" 3 router_3)
  ∧ Storage.subscribers "k:set" (Storage.removeEventListener "k:set" 3 router_3)
    = [].
Proof.
  destruct (patterns_stay_registered silent router_3
              (Storage.run_command (Storage.CmdRemoveEventListener "k:set" 3)
                                   router_3)) as [H _].
  - apply evolves_command, evolves_refl.
  - split; [exact H|reflexivity].
Defined.

Lemma evolves_wf
    (handler : Callback → StorageEvent → list Storage.Command)
    (st st' : Router) :
  wf st → evolves handler st st' → wf st'.
Proof. intros Hwf (cmds & ->)%evolves_run_commands. by apply wf_run_commands. Qed.

(** X6. The subscribers map of a storage is well formed at all times:
    whatever subscription operations and dispatches have happened since it
    was created, and whichever subscriptions the callbacks made and
    cancelled, a pattern occurs once in the map, no two patterns share a
    [Set] object, and no [Set] holds a callback twice. *)
Theorem reachable_wf
    (handler : Callback → StorageEvent → list Storage.Command) (st : Router) :
  reachable handler st → wf st.
Proof. apply evolves_wf, wf_empty. Qed.

Lemma reachable_wf_witness :
  wf (Storage.run_command (Storage.CmdRemoveEventListener "k:set" 3) router_3).
Proof.
  apply (reachable_wf silent).
  apply evolves_command.
  apply (evolves_command silent emptyRouter
           (Storage.CmdAddEventListener "k:set" 3)).
  apply evolves_refl.
Defined.

(** * What a dispatch records *)

Section Received.

Import Storage.

Variable handler : Callback → StorageEvent → list Command.


Lemma received_refl ev cs : received ev cs cs.
Proof. exists []. split; [by rewrite app_nil_r|]. by intros c e ?%elem_of_nil. Qed.

Lemma received_trans ev cs1 cs2 cs3 :
  received ev cs1 cs2 → received ev cs2 cs3 → received ev cs1 cs3.
Proof.
  intros (n1 & -> & H1) (n2 & -> & H2). exists (n1 ++ n2).
  split; [by rewrite app_assoc|].
  intros c e [?|?]%elem_of_app; eauto.
Qed.

Lemma received_one ev cs c : received ev cs (cs ++ [(c, ev)]).
Proof. exists [(c, ev)]. split; [done|]. by intros c' e [= _ ->]%list_elem_of_singleton. Qed.

Lemma Set_forEach_received fuel r i ev st cs st' cs' :
  Set_forEach handler fuel r i ev st cs = Some (st', cs') → received ev cs cs'.
Proof.
  revert i st cs. induction fuel as [|fuel IH]; intros i st cs; [done|].
  cbn [Set_forEach]. destruct (heap st !! r) as [es|].
  - destruct (es !! i) as [[c|]|].
    + intros H%IH. eapply received_trans; [apply received_one|done].
    + apply IH.
    + intros [= <- <-]. apply received_refl.
  - intros [= <- <-]. apply received_refl.
Qed.

Lemma lookup_forEach_received fuel p ev st cs st' cs' :
  lookup_forEach handler fuel p ev st cs = Some (st', cs') → received ev cs cs'.
Proof.
  unfold lookup_forEach. destruct (JSMap.get p (subscribersMap st)).
  - apply Set_forEach_received.
  - intros [= <- <-]. apply received_refl.
Qed.

Lemma Map_forEach_received fuel i ev st cs st' cs' :
  Map_forEach handler fuel i ev st cs = Some (st', cs') → received ev cs cs'.
Proof.
  revert i st cs. induction fuel as [|fuel IH]; intros i st cs; [done|].
  cbn [Map_forEach]. destruct (subscribersMap st !! i) as [[p r]|].
  - destruct (endsWith p ":*" || endsWith p ":clear").
    + destruct (Set_forEach handler fuel r 0 ev st cs) as [[st1 cs1]|] eqn:H1;
        [|done].
      apply Set_forEach_received in H1. intros H%IH.
      by eapply received_trans.
    + apply IH.
  - intros [= <- <-]. apply received_refl.
Qed.

Lemma notify_received fuel ev st cs st' cs' :
  _notify handler fuel ev st cs = Some (st', cs') → received ev cs cs'.
Proof.
  unfold _notify. case_decide; [apply Map_forEach_received|].
  destruct (lookup_forEach _ _ _ _ st cs) as [[st1 cs1]|] eqn:H1; [|done].
  destruct (lookup_forEach _ _ _ _ st1 cs1) as [[st2 cs2]|] eqn:H2; [|done].
  intros H3.
  apply lookup_forEach_received in H1, H2, H3.
  eapply received_trans; [done|]. by eapply received_trans.
Qed.

End Received.

(** X7. Whichever subscriptions the callbacks make and cancel while they
    run, each callback invoked by [set(k, v)] receives the event [{type: 'set', key: k, value}] whose value is the
    value that [set] returns, each callback invoked by [delete(k)] the
    [delete] event of [k] with the value that [delete] returns, and each
    callback invoked by [clear()] the [clear] event without key and value;
    the record of earlier invocations is kept. *)
Theorem callbacks_receive_the_event {M : Type} {provider : StorageProvider M}
    (handler : Callback → StorageEvent → list Storage.Command)
    (options : StorageOptions) (fuel : nat) (k : string) (v out : JSValue)
    (w w' : Storage.World M) :
  (Storage.set handler options fuel k v w = Some (out, w') →
   received (mkEvent ActionSet (Some k) out) (Storage.calls w) (Storage.calls w'))
  ∧ (Storage.delete handler options fuel k w = Some (out, w') →
     received (mkEvent ActionDelete (Some k) out)
              (Storage.calls w) (Storage.calls w'))
  ∧ (Storage.clear handler options fuel w = Some w' →
     received (mkEvent ActionClear None JUndefined)
              (Storage.calls w) (Storage.calls w')).
Proof.
  split_and!.
  - intros (_ & _ & Hn)%set_inv. by apply notify_received in Hn.
  - intros (_ & _ & Hn)%delete_inv. by apply notify_received in Hn.
  - unfold Storage.clear.
    destruct (Storage._notify _ _ _ _ _) as [[st cs]|] eqn:Hn; [|done].
    intros [= <-]. by apply notify_received in Hn.
Qed.

Lemma callbacks_receive_the_event_witness :
  received (mkEvent ActionSet (Some "k") (JBool true)) []
    [(3, mkEvent ActionSet (Some "k") (JBool true));
     (4, mkEvent ActionSet (Some "k") (JBool true))].
Proof.
  destruct (callbacks_receive_the_event reentrant plain_options 9 "k"
              (JBool true) (JBool true)
              (Storage.mkWorld (browser []) router_3 [])
              (Storage.mkWorld (browser [("k", "true")])
                 (Storage.run_command (Storage.CmdAddEventListener "k:set" 4)
                                      router_3)
                 [(3, mkEvent ActionSet (Some "k") (JBool true));
                  (4, mkEvent ActionSet (Some "k") (JBool true))]))
    as (H & _ & _).
  apply H. by vm_compute.
Defined.

(** * A dispatch that never returns *)

Section Divergence.

Import Storage.

Variable handler : Callback → StorageEvent → list Command.
Variables (p : string) (c : Callback) (ev : StorageEvent).

Hypothesis resubscribes :
  handler c ev = [CmdRemoveEventListener p c; CmdAddEventListener p c].

Lemma length_delete (x : Callback) (es : list (option Callback)) :
  length (JSSet.delete x es) = length es.
Proof.
  induction es as [|e es IH]; simpl; [done|].
  case_decide; simpl; by rewrite ?IH.
Qed.

Lemma members_drop_delete (es : list (option Callback)) (i : nat) :
  NoDup (JSSet.members es) → es !! i = Some (Some c) →
  JSSet.members (drop (S i) (JSSet.delete c es)) = JSSet.members (drop (S i) es).
Proof.
  revert i. induction es as [|e es IH]; intros i Hnd Hi; [done|].
  destruct i as [|i]; simpl in *.
  - injection Hi as ->. by rewrite decide_True.
  - case_decide as He.
    + subst e. simpl in Hnd. apply NoDup_cons in Hnd as [Hnin _].
      exfalso. apply Hnin, elem_of_members.
      by apply list_elem_of_lookup_2 in Hi.
    + apply IH; [|done]. destruct e; simpl in Hnd; [|done].
      by apply NoDup_cons in Hnd as [_ ?].
Qed.

(** The set of [p] after the callback has removed and added itself. *)
Lemma resubscribe_entries (st : Router) (r : nat) (es : list (option Callback)) :
  wf st → JSMap.get p (subscribersMap st) = Some r → heap st !! r = Some es →
  heap (run_commands (handler c ev) st) !! r
  = Some (JSSet.delete c es ++ [Some c]).
Proof.
  intros Hwf Hg Hes. rewrite resubscribes. simpl.
  unfold removeEventListener. rewrite Hg.
  pose proof (heap_delete_same r c st es Hes) as Hes1.
  assert (Hg1 : JSMap.get p (subscribersMap (heap_delete r c st)) = Some r)
    by (by rewrite heap_delete_map).
  rewrite (addEventListener_registered _ _ _ _ _ Hg1 Hes1). simpl.
  rewrite list_lookup_insert_eq by (by apply lookup_lt_Some in Hes1).
  f_equal. unfold JSSet.add, JSSet.has.
  rewrite bool_decide_eq_false_2; [done|].
  rewrite <- elem_of_members, members_delete.
  - rewrite list_elem_of_filter. intros [Hne _]. by apply Hne.
  - destruct Hwf as (_ & _ & _ & Hs). rewrite Forall_forall in Hs.
    apply Hs. by apply list_elem_of_lookup_2 in Hes.
Qed.

Lemma Set_forEach_diverges (fuel r : nat) :
  ∀ (i : nat) (st : Router) (cs : Calls) (es : list (option Callback)),
    wf st → JSMap.get p (subscribersMap st) = Some r →
    heap st !! r = Some es →
    c ∈ JSSet.members (drop i es) →
    (∀ c', c' ∈ JSSet.members (drop i es) → c' ≠ c → handler c' ev = []) →
    Set_forEach handler fuel r i ev st cs = None.
Proof.
  induction fuel as [|fuel IH]; intros i st cs es Hwf Hg Hes Hin Hobs; [done|].
  cbn [Set_forEach]. rewrite Hes.
  destruct (es !! i) as [[c'|]|] eqn:Hi.
  - rewrite (drop_S _ _ _ Hi) in Hin, Hobs. simpl in Hin, Hobs.
    destruct (decide (c' = c)) as [->|Hne].
    + pose proof (resubscribe_entries st r es Hwf Hg Hes) as Hes'.
      eapply IH; [| |exact Hes'| |].
      * by apply wf_run_commands.
      * by apply get_run_commands.
      * rewrite drop_app_le
          by (rewrite length_delete; apply lookup_lt_Some in Hi; lia).
        rewrite members_app. apply elem_of_app. right. simpl. left.
      * intros c'. rewrite drop_app_le
          by (rewrite length_delete; apply lookup_lt_Some in Hi; lia).
        rewrite members_app, members_drop_delete; [|
          destruct Hwf as (_ & _ & _ & Hs); rewrite Forall_forall in Hs;
          apply Hs; by apply list_elem_of_lookup_2 in Hes|done].
        intros [H|H]%elem_of_app Hc'.
        -- apply Hobs; [by right|done].
        -- simpl in H. by apply list_elem_of_singleton in H.
    + rewrite (Hobs c') by (done || left). simpl.
      eapply IH; [done..| |].
      * apply elem_of_cons in Hin as [->|?]; done.
      * intros c'' H. apply Hobs. by right.
  - rewrite (drop_S _ _ _ Hi) in Hin, Hobs. simpl in Hin, Hobs.
    by eapply IH.
  - apply lookup_ge_None in Hi. rewrite drop_ge in Hin by done.
    by apply elem_of_nil in Hin.
Qed.

Lemma lookup_forEach_diverges (fuel : nat) (st : Router) (cs : Calls) :
  wf st → c ∈ subscribers p st →
  (∀ c', c' ∈ subscribers p st → c' ≠ c → handler c' ev = []) →
  lookup_forEach handler fuel p ev st cs = None.
Proof.
  unfold lookup_forEach, subscribers. intros Hwf Hin Hobs.
  destruct (JSMap.get p (subscribersMap st)) as [r|] eqn:Hg;
    [|by apply elem_of_nil in Hin].
  destruct (heap st !! r) as [es|] eqn:Hes; [|by apply elem_of_nil in Hin].
  eapply Set_forEach_diverges; [done..| |]; by rewrite drop_0.
Qed.

End Divergence.

(** X8. A callback that, when invoked, unsubscribes and subscribes itself
    again under ["k:set"] keeps being put at the end of the set that is
    being walked: with such a callback under ["k:set"] (the other callbacks
    of that pattern being observers) [set(k, v)] stores the value and then
    never returns, however much fuel the dispatch is given. *)
Theorem set_never_returns {M : Type} {provider : StorageProvider M}
    (handler : Callback → StorageEvent → list Storage.Command)
    (options : StorageOptions) (fuel : nat) (k : string) (v : JSValue)
    (w : Storage.World M) (c : Callback) :
  wf (Storage.router w) →
  c ∈ Storage.subscribers (k +:+ ":set") (Storage.router w) →
  (∀ e, handler c e
        = [Storage.CmdRemoveEventListener (k +:+ ":set") c;
           Storage.CmdAddEventListener (k +:+ ":set") c]) →
  (∀ c' e, c' ∈ Storage.subscribers (k +:+ ":set") (Storage.router w) →
           c' ≠ c → handler c' e = []) →
  Storage.set handler options fuel k v w = None.
Proof.
  intros Hwf Hin Hc Hobs. unfold Storage.set.
  destruct (provider_set k v options (Storage.medium w)) as [nv m].
  unfold Storage._notify. simpl.
  by rewrite (lookup_forEach_diverges handler (k +:+ ":set") c) by eauto.
Qed.

Lemma set_never_returns_witness :
  Storage.set restless plain_options 1000 "k" JNull
    (Storage.mkWorld (browser []) router_1_2 [])
  = None.
Proof.
  apply (set_never_returns restless plain_options 1000 "k" JNull
           (Storage.mkWorld (browser []) router_1_2 []) 1).
  - apply wf_listen, wf_empty.
  - vm_compute. present.
  - done.
  - intros c' e Hc' Hne.
    change (c' ∈ [1; 2]) in Hc'.
    apply elem_of_cons in Hc' as [->|Hc']; [done|].
    by apply list_elem_of_singleton in Hc' as ->.
Defined.

(** * Keys, prefixes and entries of [localStorage] *)

Section Entries.

Implicit Types (k : string) (v : JSValue) (h : Host) (o : StorageOptions).

Lemma host_eta h : {| window_defined := window_defined h; store := store h |} = h.
Proof. by destruct h. Qed.

Lemma append_inj_l (a s t : string) : a +:+ s = a +:+ t → s = t.
Proof.
  intros H. apply list_ascii_inj.
  apply (f_equal String.list_ascii_of_string) in H.
  rewrite !list_ascii_app in H. by apply app_inv_head in H.
Qed.

(** Under one prefix, different keys have different entries. *)
Lemma prefixedKey_inj o k k' :
  LocalStorageProvider.prefixedKey k o = LocalStorageProvider.prefixedKey k' o →
  k = k'.
Proof.
  unfold LocalStorageProvider.prefixedKey.
  destruct (prefix o) as [p|]; [|done].
  destruct (String.eqb p ""); [done|]. apply append_inj_l.
Qed.

Lemma provider_get_set_other k1 k2 v o1 o2 h :
  LocalStorageProvider.prefixedKey k2 o2 ≠ LocalStorageProvider.prefixedKey k1 o1 →
  LocalStorageProvider.get k2 o2 (LocalStorageProvider.set k1 v o1 h).2
  = LocalStorageProvider.get k2 o2 h.
Proof.
  intros Hne. unfold LocalStorageProvider.set, LocalStorageProvider.get.
  destruct (window_defined h) eqn:Hw; simpl; rewrite Hw; simpl; [|done].
  unfold localStorage.getItem. simpl. by rewrite lookup_insert_ne.
Qed.

Lemma provider_get_set_same k1 k2 v o1 o2 h :
  window_defined h = true →
  LocalStorageProvider.prefixedKey k2 o2 = LocalStorageProvider.prefixedKey k1 o1 →
  LocalStorageProvider.get k2 o2 (LocalStorageProvider.set k1 v o1 h).2
  = parse (jsonSerializer o2) (DOMString (stringify (jsonSerializer o1) v)).
Proof.
  intros Hw Heq. unfold LocalStorageProvider.set, LocalStorageProvider.get.
  rewrite Hw. simpl. rewrite Hw. simpl.
  unfold localStorage.getItem. simpl. by rewrite Heq, lookup_insert_eq.
Qed.

Lemma provider_get_delete_other k1 k2 o1 o2 h :
  LocalStorageProvider.prefixedKey k2 o2 ≠ LocalStorageProvider.prefixedKey k1 o1 →
  LocalStorageProvider.get k2 o2 (LocalStorageProvider.delete k1 o1 h).2
  = LocalStorageProvider.get k2 o2 h.
Proof.
  intros Hne. unfold LocalStorageProvider.delete, LocalStorageProvider.get.
  destruct (window_defined h) eqn:Hw; simpl; rewrite Hw; simpl; [|done].
  unfold localStorage.getItem. simpl. by rewrite lookup_delete_ne.
Qed.

Lemma provider_delete_missing k o h :
  store h !! LocalStorageProvider.prefixedKey k o = None →
  LocalStorageProvider.delete k o h = (JNull, h).
Proof.
  intros Hs. unfold LocalStorageProvider.delete, LocalStorageProvider.get.
  destruct (window_defined h) eqn:Hw; simpl; [|done].
  unfold localStorage.getItem, localStorage.removeItem. rewrite Hs.
  rewrite delete_id by done. by rewrite host_eta.
Qed.

End Entries.

(** X9. [set(k1, v)] writes one entry of [localStorage], the one named by
    prefix and key together: a later [get(k2)], under whatever options,
    reads that entry when its prefix and key concatenate to the same
    string, and is not affected otherwise; under the same options no
    other key is affected. *)
Theorem get_after_set
    (k1 k2 : string) (v : JSValue) (o1 o2 : StorageOptions) (h : Host) :
  window_defined h = true →
  LocalStorageProvider.get k2 o2 (LocalStorageProvider.set k1 v o1 h).2
  = (if decide (LocalStorageProvider.prefixedKey k2 o2
                = LocalStorageProvider.prefixedKey k1 o1)
     then parse (jsonSerializer o2) (DOMString (stringify (jsonSerializer o1) v))
     else LocalStorageProvider.get k2 o2 h)
  ∧ (k2 ≠ k1 →
     LocalStorageProvider.get k2 o1 (LocalStorageProvider.set k1 v o1 h).2
     = LocalStorageProvider.get k2 o1 h).
Proof.
  intros Hw. split.
  - case_decide.
    + by apply provider_get_set_same.
    + by apply provider_get_set_other.
  - intros Hne. apply provider_get_set_other.
    intros Heq%prefixedKey_inj. done.
Qed.

Lemma get_after_set_witness :
  LocalStorageProvider.get "c"
    {| prefix := Some "ab"; jsonSerializer := defaultJSONSerializer keywordJSON |}
    (LocalStorageProvider.set "bc" (JBool true)
       {| prefix := Some "a"; jsonSerializer := defaultJSONSerializer keywordJSON |}
       (browser [])).2
  = JBool true
  ∧ LocalStorageProvider.get "refreshToken" prefixed_options
      (LocalStorageProvider.set "accessToken" (JBool true) prefixed_options
         (browser [])).2
    = JNull.
Proof.
  destruct (get_after_set "bc" "c" (JBool true)
              {| prefix := Some "a";
                 jsonSerializer := defaultJSONSerializer keywordJSON |}
              {| prefix := Some "ab";
                 jsonSerializer := defaultJSONSerializer keywordJSON |}
              (browser []) eq_refl) as [H1 _].
  destruct (get_after_set "accessToken" "refreshToken" (JBool true)
              prefixed_options prefixed_options (browser []) eq_refl)
    as [_ H2].
  split; [exact H1|]. apply H2. discriminate.
Defined.

(** X10. [delete(k1)] removes one entry of [localStorage]: afterwards
    [get] returns [null] for a prefix and key that concatenate to the same
    string, and what it returned before for any other; under the same
    options no other key is affected. When there is no entry, [delete]
    returns [null] and leaves [localStorage] as it was. *)
Theorem get_after_delete
    (k1 k2 : string) (o1 o2 : StorageOptions) (h : Host) :
  LocalStorageProvider.get k2 o2 (LocalStorageProvider.delete k1 o1 h).2
  = (if decide (LocalStorageProvider.prefixedKey k2 o2
                = LocalStorageProvider.prefixedKey k1 o1)
     then JNull
     else LocalStorageProvider.get k2 o2 h)
  ∧ (k2 ≠ k1 →
     LocalStorageProvider.get k2 o1 (LocalStorageProvider.delete k1 o1 h).2
     = LocalStorageProvider.get k2 o1 h)
  ∧ (store h !! LocalStorageProvider.prefixedKey k1 o1 = None →
     LocalStorageProvider.delete k1 o1 h = (JNull, h)).
Proof.
  split_and!.
  - case_decide as Heq.
    + unfold LocalStorageProvider.delete, LocalStorageProvider.get.
      destruct (window_defined h) eqn:Hw; simpl; rewrite Hw; simpl; [|done].
      unfold localStorage.getItem. simpl. by rewrite Heq, lookup_delete_eq.
    + by apply provider_get_delete_other.
  - intros Hne. apply provider_get_delete_other.
    intros Heq%prefixedKey_inj. done.
  - apply provider_delete_missing.
Qed.

Lemma get_after_delete_witness :
  LocalStorageProvider.get "refreshToken" prefixed_options
    (LocalStorageProvider.delete "accessToken" prefixed_options
       (browser [("some-prefix:refreshToken", "true")])).2
  = JBool true
  ∧ LocalStorageProvider.delete "accessToken" prefixed_options
      (browser [("some-prefix:refreshToken", "true")])
    = (JNull, browser [("some-prefix:refreshToken", "true")]).
Proof.
  destruct (get_after_delete "accessToken" "refreshToken" prefixed_options
              prefixed_options (browser [("some-prefix:refreshToken", "true")]))
    as (_ & H2 & H3).
  split.
  - rewrite H2 by discriminate. reflexivity.
  - apply H3. reflexivity.
Defined.

(** X11. Only the last write to a key counts: [set] after [set] on a key
    leaves [localStorage] as the second [set] alone would, [delete] after
    [set] as [delete] alone would, and [delete] after [set] on a key that
    had no entry restores [localStorage]. *)
Theorem last_write_wins
    (k : string) (v1 v2 : JSValue) (o : StorageOptions) (h : Host) :
  (LocalStorageProvider.set k v2 o (LocalStorageProvider.set k v1 o h).2).2
  = (LocalStorageProvider.set k v2 o h).2
  ∧ (LocalStorageProvider.delete k o (LocalStorageProvider.set k v1 o h).2).2
    = (LocalStorageProvider.delete k o h).2
  ∧ (store h !! LocalStorageProvider.prefixedKey k o = None →
     (LocalStorageProvider.delete k o (LocalStorageProvider.set k v1 o h).2).2
     = h).
Proof.
  assert (Hdel :
    (LocalStorageProvider.delete k o (LocalStorageProvider.set k v1 o h).2).2
    = (LocalStorageProvider.delete k o h).2).
  { unfold LocalStorageProvider.set, LocalStorageProvider.delete.
    destruct (window_defined h) eqn:Hw; simpl; rewrite ?Hw; simpl; [|done].
    unfold localStorage.removeItem. simpl. by rewrite delete_insert_eq. }
  split_and!.
  - unfold LocalStorageProvider.set.
    destruct (window_defined h) eqn:Hw; simpl; rewrite ?Hw; simpl; [|done].
    unfold localStorage.setItem. simpl. by rewrite insert_insert_eq.
  - exact Hdel.
  - intros Hs. rewrite Hdel. by rewrite provider_delete_missing.
Qed.

Lemma last_write_wins_witness :
  (LocalStorageProvider.delete "accessToken" prefixed_options
     (LocalStorageProvider.set "accessToken" (JBool true) prefixed_options
        (browser [("some-prefix:refreshToken", "true")])).2).2
  = browser [("some-prefix:refreshToken", "true")].
Proof.
  destruct (last_write_wins "accessToken" (JBool true) JNull prefixed_options
              (browser [("some-prefix:refreshToken", "true")]))
    as (_ & _ & H3).
  apply H3. reflexivity.
Defined.

(** X12. [clear] empties [localStorage] as a whole, not the entries under
    the prefix of the options: afterwards [get] returns [null] for every
    key under every prefix. *)
Theorem clear_is_global
    (o o' : StorageOptions) (k : string) (h : Host) :
  window_defined h = true →
  store (LocalStorageProvider.clear o h) = ∅
  ∧ LocalStorageProvider.get k o' (LocalStorageProvider.clear o h) = JNull.
Proof.
  intros Hw. unfold LocalStorageProvider.clear, LocalStorageProvider.get.
  rewrite Hw. simpl. rewrite Hw. simpl. split; [done|].
  unfold localStorage.getItem. simpl. by rewrite lookup_empty.
Qed.

Lemma clear_is_global_witness :
  store (LocalStorageProvider.clear prefixed_options
           (browser [("other-prefix:token", "true")])) = ∅
  ∧ LocalStorageProvider.get "token"
      {| prefix := Some "other-prefix:";
         jsonSerializer := defaultJSONSerializer keywordJSON |}
      (LocalStorageProvider.clear prefixed_options
         (browser [("other-prefix:token", "true")]))
    = JNull.
Proof.
  apply (clear_is_global prefixed_options
           {| prefix := Some "other-prefix:";
              jsonSerializer := defaultJSONSerializer keywordJSON |}
           "token" (browser [("other-prefix:token", "true")])).
  reflexivity.
Defined.

(** X13. With the default serializer [get] returns [null] in exactly these
    cases: there is no [window], the key has no entry, the entry is a text
    that [JSON.parse] rejects, or it is a text that [JSON.parse] reads as
    [null]; a caller cannot tell them apart. *)
Theorem get_null_cases
    (J : JSONObject) (o : StorageOptions) (k : string) (h : Host) :
  jsonSerializer o = defaultJSONSerializer J →
  LocalStorageProvider.get k o h = JNull
  ↔ window_defined h = false
    ∨ store h !! LocalStorageProvider.prefixedKey k o = None
    ∨ ∃ s, store h !! LocalStorageProvider.prefixedKey k o = Some s
           ∧ (JSON_parse J s = None ∨ JSON_parse J s = Some JNull).
Proof.
  intros Hj. unfold LocalStorageProvider.get, localStorage.getItem.
  rewrite Hj. simpl.
  destruct (window_defined h); simpl; [|by split; [left|]].
  destruct (store h !! LocalStorageProvider.prefixedKey k o) as [s|];
    [|by split; [right; left|]].
  split.
  - intros Hp. right. right. exists s. split; [done|].
    destruct (JSON_parse J s); [right; by subst|by left].
  - intros [?|[?|(s' & [= <-] & [->| ->])]]; done.
Qed.

Lemma get_null_cases_witness :
  LocalStorageProvider.get "token" plain_options
    (browser [("token", "undefined")]) = JNull.
Proof.
  apply (get_null_cases keywordJSON plain_options "token"
           (browser [("token", "undefined")]) eq_refl).
  right. right. exists "undefined". split; [reflexivity|]. by left.
Defined.

(** * What the facade stores, returns and reports *)

(** X14. On an available medium, whatever the serializer is and whichever
    subscriptions the callbacks make and cancel, [set(k, v)] returns [v]
    itself, stores the serializer's text of [v] under prefix and key,
    changes no other entry, and invokes callbacks only with the event that
    carries [v] itself, not the value that a later [get] would read. *)
Theorem set_stores_and_reports
    (handler : Callback → StorageEvent → list Storage.Command)
    (o : StorageOptions) (fuel : nat) (k : string) (v out : JSValue)
    (w w' : Storage.World Host) :
  window_defined (Storage.medium w) = true →
  Storage.set handler o fuel k v w = Some (out, w') →
  out = v
  ∧ store (Storage.medium w')
    = <[LocalStorageProvider.prefixedKey k o
        := DOMString (stringify (jsonSerializer o) v)]>
      (store (Storage.medium w))
  ∧ received (mkEvent ActionSet (Some k) v) (Storage.calls w) (Storage.calls w').
Proof.
  intros Hw (Hout & Hm & Hn)%set_inv. simpl in Hout, Hm.
  unfold LocalStorageProvider.set in Hout, Hm. rewrite Hw in Hout, Hm.
  simpl in Hout, Hm. subst out. split_and!.
  - done.
  - by rewrite Hm.
  - by apply notify_received in Hn.
Qed.

Lemma set_stores_and_reports_witness :
  store (browser [("k", "undefined")])
  = <[LocalStorageProvider.prefixedKey "k" plain_options
      := DOMString (stringify (jsonSerializer plain_options) JUndefined)]>
    (store (browser []))
  ∧ received (mkEvent ActionSet (Some "k") JUndefined) []
      [(3, mkEvent ActionSet (Some "k") JUndefined);
       (4, mkEvent ActionSet (Some "k") JUndefined)].
Proof.
  destruct (set_stores_and_reports reentrant plain_options 9 "k"
              JUndefined JUndefined
              (Storage.mkWorld (browser []) router_3 [])
              (Storage.mkWorld (browser [("k", "undefined")])
                 (Storage.run_command (Storage.CmdAddEventListener "k:set" 4)
                                      router_3)
                 [(3, mkEvent ActionSet (Some "k") JUndefined);
                  (4, mkEvent ActionSet (Some "k") JUndefined)])
              eq_refl) as (_ & H2 & H3).
  - by vm_compute.
  - split; [exact H2|exact H3].
Defined.

(** X15. [delete(k)] of a key that has no entry, on an available medium,
    returns [null], leaves [localStorage] as it was, and dispatches the
    [delete] event of [k] with value [null] all the same. *)
Theorem delete_missing_key
    (handler : Callback → StorageEvent → list Storage.Command)
    (o : StorageOptions) (fuel : nat) (k : string) (w : Storage.World Host) :
  let ev := mkEvent ActionDelete (Some k) JNull in
  store (Storage.medium w) !! LocalStorageProvider.prefixedKey k o = None →
  wf (Storage.router w) →
  discreet handler ev (Storage.router w) →
  dispatch_fuel handler ev (Storage.router w) < fuel →
  Storage.delete handler o fuel k w
  = Some (JNull,
          Storage.mkWorld (Storage.medium w)
            (Storage.run_commands
               (commands_of handler ev (matched ev (Storage.router w)))
               (Storage.router w))
            (Storage.calls w ++ calls_of ev (matched ev (Storage.router w)))).
Proof.
  intros ev Hs Hwf Hd Hfuel.
  pose proof (delete_discreet handler o fuel k w) as H. simpl in H.
  rewrite provider_delete_missing in H by done. by apply H.
Qed.

Lemma delete_missing_key_witness :
  Storage.delete silent plain_options 9 "products"
    (Storage.mkWorld (browser []) products_router [])
  = Some (JNull,
          Storage.mkWorld (browser []) products_router
            (calls_of (mkEvent ActionDelete (Some "products") JNull) [4])).
Proof.
  apply (delete_missing_key silent plain_options 9 "products"
           (Storage.mkWorld (browser []) products_router [])).
  - reflexivity.
  - apply wf_listen, wf_empty.
  - apply discreet_silent.
  - vm_compute. lia.
Defined.



(** * The earlier storage class *)

Section Earlier.

Import SerializableLocalStorage.

Variable J : JSONObject.
Variable handler : Callback → Event → list Command.
Variable prefix : string.

Implicit Types (k : string) (v : JSValue) (w : World) (c : Callback).

Lemma notified_nil ev w : notified ev [] w = w.
Proof. destruct w. unfold notified. simpl. by rewrite app_nil_r. Qed.

Lemma notified_cons ev c l w :
  notified ev l
    {| host := host w; _subscribers := _subscribers w;
       calls := calls w ++ [(c, ev)] |}
  = notified ev (c :: l) w.
Proof. unfold notified. simpl. by rewrite <- app_assoc. Qed.

Lemma forEach_observers fuel i ev w :
  (∀ c, c ∈ JSSet.members (drop i (_subscribers w)) → handler c ev = []) →
  length (_subscribers w) - i < fuel →
  forEach handler fuel i ev w
  = Some (notified ev (JSSet.members (drop i (_subscribers w))) w).
Proof.
  revert i w. induction fuel as [|fuel IH]; intros i w Hobs Hfuel; [lia|].
  cbn [forEach]. destruct (_subscribers w !! i) as [[c|]|] eqn:Hi.
  - rewrite (drop_S _ _ _ Hi) in Hobs |- *. simpl in *.
    pose proof (lookup_lt_Some _ _ _ Hi).
    rewrite (Hobs c) by left. simpl. rewrite IH; simpl.
    + by rewrite notified_cons.
    + intros c' Hc'. apply Hobs. by right.
    + lia.
  - rewrite (drop_S _ _ _ Hi) in Hobs |- *. simpl in *.
    pose proof (lookup_lt_Some _ _ _ Hi).
    apply IH; [done|lia].
  - apply lookup_ge_None in Hi. rewrite drop_ge by done. simpl.
    by rewrite notified_nil.
Qed.

Lemma notify_observers fuel ev w :
  (∀ c, c ∈ JSSet.members (_subscribers w) → handler c ev = []) →
  length (_subscribers w) < fuel →
  _notify handler fuel ev w
  = Some (notified ev (JSSet.members (_subscribers w)) w).
Proof.
  intros Hobs Hfuel. unfold _notify.
  rewrite forEach_observers, drop_0; [done| |lia]. by rewrite drop_0.
Qed.

Lemma get_notified ev l k w : get J prefix k (notified ev l w) = get J prefix k w.
Proof. done. Qed.

End Earlier.

(** X16. Without [window] the earlier class does nothing at all: [get]
    returns [null], and [set], [delete] and [clear] return at once, with
    [localStorage] untouched and no subscriber invoked (unlike the facade
    of [storage.ts], which dispatches its event all the same). *)
Theorem earlier_class_without_window
    (J : JSONObject)
    (handler : Callback → Event → list SerializableLocalStorage.Command)
    (prefix : string) (fuel : nat) (k : string) (v : JSValue)
    (w : SerializableLocalStorage.World) :
  window_defined (SerializableLocalStorage.host w) = false →
  SerializableLocalStorage.get J prefix k w = JNull
  ∧ SerializableLocalStorage.set J handler prefix fuel k v w = Some w
  ∧ SerializableLocalStorage.delete handler prefix fuel k w = Some w
  ∧ SerializableLocalStorage.clear handler fuel w = Some w.
Proof.
  intros Hw.
  unfold SerializableLocalStorage.get, SerializableLocalStorage.set,
    SerializableLocalStorage.delete, SerializableLocalStorage.clear.
  by rewrite Hw.
Qed.

Lemma earlier_class_without_window_witness :
  SerializableLocalStorage.get keywordJSON "app:" "a" earlier_server = JNull
  ∧ SerializableLocalStorage.set keywordJSON onlookers "app:" 9 "a"
      (JBool true) earlier_server = Some earlier_server
  ∧ SerializableLocalStorage.delete onlookers "app:" 9 "a" earlier_server
    = Some earlier_server
  ∧ SerializableLocalStorage.clear onlookers 9 earlier_server
    = Some earlier_server.
Proof.
  exact (earlier_class_without_window keywordJSON onlookers "app:" 9 "a"
           (JBool true) earlier_server eq_refl).
Defined.

(** X17. With [window], [set(k, v)] of the earlier class stores the JSON
    text of [v] under prefix and key and then invokes every subscriber
    once, in subscription order, with the event [{type: 'set', key: k,
    value: v}] (the subscribers being observers); afterwards [get(k)]
    returns what [JSON.parse] reads from that text, [null] if it throws,
    and [get] of any other key returns what it did before. *)
Theorem earlier_class_set
    (J : JSONObject)
    (handler : Callback → Event → list SerializableLocalStorage.Command)
    (prefix : string) (fuel : nat) (k : string) (v : JSValue)
    (w : SerializableLocalStorage.World) :
  let subscribers :=
    JSSet.members (SerializableLocalStorage._subscribers w) in
  let w' :=
    notified (EventSet k v) subscribers
      (with_host
         (localStorage.setItem (prefix +:+ k) (JSON_stringify J v)
            (SerializableLocalStorage.host w)) w) in
  window_defined (SerializableLocalStorage.host w) = true →
  (∀ c, c ∈ subscribers → handler c (EventSet k v) = []) →
  length (SerializableLocalStorage._subscribers w) < fuel →
  SerializableLocalStorage.set J handler prefix fuel k v w = Some w'
  ∧ SerializableLocalStorage.get J prefix k w'
    = SerializableLocalStorage.JSONParseAsync J (DOMString (JSON_stringify J v))
  ∧ (∀ k', k' ≠ k →
           SerializableLocalStorage.get J prefix k' w'
           = SerializableLocalStorage.get J prefix k' w).
Proof.
  intros subscribers w' Hw Hobs Hfuel. split_and!.
  - unfold SerializableLocalStorage.set. rewrite Hw. simpl.
    by rewrite notify_observers.
  - unfold SerializableLocalStorage.get, localStorage.getItem. simpl.
    rewrite Hw. simpl. by rewrite lookup_insert_eq.
  - intros k' Hne.
    unfold SerializableLocalStorage.get, localStorage.getItem. simpl.
    rewrite Hw. simpl. rewrite lookup_insert_ne; [done|].
    unfold SerializableLocalStorage.prefixedKey.
    intros Heq%append_inj_l. done.
Qed.

Lemma earlier_class_set_witness :
  SerializableLocalStorage.set keywordJSON onlookers "app:" 9 "a"
    (JBool false) earlier_browser
  = Some {| SerializableLocalStorage.host :=
              browser [("app:a", "false"); ("b", "null")];
            SerializableLocalStorage._subscribers := [Some 1; None; Some 2];
            SerializableLocalStorage.calls :=
              [(1, EventSet "a" (JBool false));
               (2, EventSet "a" (JBool false))] |}.
Proof.
  destruct (earlier_class_set keywordJSON onlookers "app:" 9 "a"
              (JBool false) earlier_browser eq_refl)
    as (Hset & _).
  - done.
  - simpl. lia.
  - rewrite Hset. by vm_compute.
Defined.

(** X18. With [window], [delete(k)] of the earlier class removes the entry
    of prefix and key and invokes every subscriber once, in subscription
    order, with the event [{type: 'delete', key: k}], also when there was
    no entry (the subscribers being observers); afterwards [get(k)] returns
    [null] and [get] of any other key returns what it did before. *)
Theorem earlier_class_delete
    (J : JSONObject)
    (handler : Callback → Event → list SerializableLocalStorage.Command)
    (prefix : string) (fuel : nat) (k : string)
    (w : SerializableLocalStorage.World) :
  let subscribers :=
    JSSet.members (SerializableLocalStorage._subscribers w) in
  let w' :=
    notified (EventDelete k) subscribers
      (with_host
         (localStorage.removeItem (prefix +:+ k)
            (SerializableLocalStorage.host w)) w) in
  window_defined (SerializableLocalStorage.host w) = true →
  (∀ c, c ∈ subscribers → handler c (EventDelete k) = []) →
  length (SerializableLocalStorage._subscribers w) < fuel →
  SerializableLocalStorage.delete handler prefix fuel k w = Some w'
  ∧ SerializableLocalStorage.get J prefix k w' = JNull
  ∧ (∀ k', k' ≠ k →
           SerializableLocalStorage.get J prefix k' w'
           = SerializableLocalStorage.get J prefix k' w).
Proof.
  intros subscribers w' Hw Hobs Hfuel. split_and!.
  - unfold SerializableLocalStorage.delete. rewrite Hw. simpl.
    by rewrite notify_observers.
  - unfold SerializableLocalStorage.get, localStorage.getItem. simpl.
    rewrite Hw. simpl. by rewrite lookup_delete_eq.
  - intros k' Hne.
    unfold SerializableLocalStorage.get, localStorage.getItem. simpl.
    rewrite Hw. simpl. rewrite lookup_delete_ne; [done|].
    unfold SerializableLocalStorage.prefixedKey.
    intros Heq%append_inj_l. done.
Qed.

Lemma earlier_class_delete_witness :
  SerializableLocalStorage.get keywordJSON "app:" "a"
    (notified (EventDelete "a") [1; 2]
       (with_host
          (localStorage.removeItem "app:a"
             (SerializableLocalStorage.host earlier_browser))
          earlier_browser))
  = JNull.
Proof.
  destruct (earlier_class_delete keywordJSON onlookers "app:" 9 "a"
              earlier_browser eq_refl)
    as (_ & Hget & _).
  - done.
  - simpl. lia.
  - exact Hget.
Defined.

(** X19. With [window], [clear()] of the earlier class empties
    [localStorage] as a whole, the entries of other prefixes included, and
    invokes every subscriber once, in subscription order, with the event
    [{type: 'clear'}] (the subscribers being observers); afterwards [get]
    returns [null] for every key under every prefix. *)
Theorem earlier_class_clear
    (J : JSONObject)
    (handler : Callback → Event → list SerializableLocalStorage.Command)
    (fuel : nat) (w : SerializableLocalStorage.World) :
  let subscribers :=
    JSSet.members (SerializableLocalStorage._subscribers w) in
  let w' :=
    notified EventClear subscribers
      (with_host (localStorage.clear (SerializableLocalStorage.host w)) w) in
  window_defined (SerializableLocalStorage.host w) = true →
  (∀ c, c ∈ subscribers → handler c EventClear = []) →
  length (SerializableLocalStorage._subscribers w) < fuel →
  SerializableLocalStorage.clear handler fuel w = Some w'
  ∧ store (SerializableLocalStorage.host w') = ∅
  ∧ (∀ prefix' k, SerializableLocalStorage.get J prefix' k w' = JNull).
Proof.
  intros subscribers w' Hw Hobs Hfuel. split_and!.
  - unfold SerializableLocalStorage.clear. rewrite Hw. simpl.
    by rewrite notify_observers.
  - done.
  - intros prefix' k.
    unfold SerializableLocalStorage.get, localStorage.getItem. simpl.
    rewrite Hw. simpl. by rewrite lookup_empty.
Qed.

Lemma earlier_class_clear_witness :
  SerializableLocalStorage.clear onlookers 9 earlier_browser
  = Some {| SerializableLocalStorage.host := browser [];
            SerializableLocalStorage._subscribers := [Some 1; None; Some 2];
            SerializableLocalStorage.calls :=
              [(1, EventClear); (2, EventClear)] |}
  ∧ SerializableLocalStorage.get keywordJSON "" "b"
      (notified EventClear [1; 2]
         (with_host
            (localStorage.clear (SerializableLocalStorage.host earlier_browser))
            earlier_browser))
    = JNull.
Proof.
  destruct (earlier_class_clear keywordJSON onlookers 9 earlier_browser
              eq_refl)
    as (Hclear & _ & Hget).
  - done.
  - simpl. lia.
  - split; [by rewrite Hclear|apply Hget].
Defined.

(** X20. The subscribers of the earlier class form a set that remembers
    insertion order: [addEventListener(c)] puts [c] last unless it is
    subscribed already (subscribing twice is subscribing once), and the
    [unsubscribe] of the subscription it returns removes [c] and no other
    subscriber, and changes nothing when called again. *)
Theorem earlier_class_subscriptions
    (c : Callback) (w : SerializableLocalStorage.World) :
  NoDup (JSSet.members (SerializableLocalStorage._subscribers w)) →
  let s := (SerializableLocalStorage.addEventListener c w).1 in
  let w1 := (SerializableLocalStorage.addEventListener c w).2 in
  let w2 := SerializableLocalStorage.unsubscribe s w1 in
  JSSet.members (SerializableLocalStorage._subscribers w1)
  = (if decide (c ∈ JSSet.members (SerializableLocalStorage._subscribers w))
     then JSSet.members (SerializableLocalStorage._subscribers w)
     else JSSet.members (SerializableLocalStorage._subscribers w) ++ [c])
  ∧ SerializableLocalStorage.addEventListener c w1 = (s, w1)
  ∧ JSSet.members (SerializableLocalStorage._subscribers w2)
    = filter (λ x, x ≠ c)
        (JSSet.members (SerializableLocalStorage._subscribers w))
  ∧ SerializableLocalStorage.unsubscribe s w2 = w2.
Proof.
  intros Hnd s w1 w2.
  assert (Hm1 : JSSet.members (SerializableLocalStorage._subscribers w1)
    = (if decide (c ∈ JSSet.members (SerializableLocalStorage._subscribers w))
       then JSSet.members (SerializableLocalStorage._subscribers w)
       else JSSet.members (SerializableLocalStorage._subscribers w) ++ [c]))
    by apply members_add.
  assert (Hnd1 : NoDup (JSSet.members (SerializableLocalStorage._subscribers w1)))
    by (by apply members_add_NoDup).
  split_and!.
  - exact Hm1.
  - unfold SerializableLocalStorage.addEventListener. simpl. f_equal.
    unfold w1. simpl. f_equal.
    assert (Hin : c ∈ JSSet.members
                        (JSSet.add c (SerializableLocalStorage._subscribers w))).
    { rewrite members_add. case_decide; [done|].
      apply elem_of_app. right. by apply list_elem_of_singleton. }
    apply elem_of_members in Hin.
    unfold JSSet.add at 1, JSSet.has.
    by rewrite bool_decide_eq_true_2.
  - unfold w2. simpl. rewrite members_delete by done.
    unfold w1 in Hm1. simpl in Hm1. rewrite Hm1. case_decide; [done|].
    by rewrite filter_app, filter_ne_singleton, app_nil_r.
  - unfold w2, SerializableLocalStorage.unsubscribe. simpl. f_equal.
    by apply delete_idemp.
Qed.

Lemma earlier_class_subscriptions_witness :
  JSSet.members
    (SerializableLocalStorage._subscribers
       (SerializableLocalStorage.addEventListener 3 earlier_browser).2)
  = [1; 2; 3].
Proof.
  destruct (earlier_class_subscriptions 3 earlier_browser) as (H & _).
  - vm_compute. repeat constructor; absent.
  - rewrite H. rewrite decide_False; [done|]. vm_compute. absent.
Defined.

(** * Walking a set while it changes *)

Section LiveWalk.

Import Storage.

Variable handler : Callback → StorageEvent → list Command.
Variable ev : StorageEvent.

Implicit Types (p : string) (c : Callback) (st : Router) (r : nat) (cs : Calls)
  (es : list (option Callback)).

Lemma Set_forEach_observers fuel r i st cs es :
  heap st !! r = Some es →
  (∀ c, c ∈ JSSet.members (drop i es) → handler c ev = []) →
  length es - i < fuel →
  Set_forEach handler fuel r i ev st cs
  = Some (st, cs ++ calls_of ev (JSSet.members (drop i es))).
Proof.
  intros Hes. revert i cs.
  induction fuel as [|fuel IH]; intros i cs Hq Hfuel; [lia|].
  cbn [Set_forEach]. rewrite Hes.
  destruct (es !! i) as [[c|]|] eqn:Hi.
  - rewrite (drop_S _ _ _ Hi) in Hq |- *. simpl in *.
    pose proof (lookup_lt_Some _ _ _ Hi).
    rewrite (Hq c) by left. simpl. rewrite IH.
    + by rewrite <- app_assoc.
    + intros c' Hc'. apply Hq. by right.
    + lia.
  - rewrite (drop_S _ _ _ Hi) in Hq |- *. simpl in *.
    pose proof (lookup_lt_Some _ _ _ Hi).
    apply IH; [done|lia].
  - apply lookup_ge_None in Hi. rewrite drop_ge by done. simpl.
    by rewrite app_nil_r.
Qed.

Lemma lookup_forEach_observers fuel p st cs :
  (∀ c, c ∈ subscribers p st → handler c ev = []) →
  0 < fuel →
  (∀ r es, JSMap.get p (subscribersMap st) = Some r →
           heap st !! r = Some es → length es < fuel) →
  lookup_forEach handler fuel p ev st cs
  = Some (st, cs ++ calls_of ev (subscribers p st)).
Proof.
  unfold lookup_forEach, subscribers. intros Hq Hpos Hfuel.
  destruct (JSMap.get p (subscribersMap st)) as [r|]; simpl.
  - destruct (heap st !! r) as [es|] eqn:Hes.
    + rewrite (Set_forEach_observers _ _ _ _ _ es), drop_0; [done..| |].
      * by rewrite drop_0.
      * specialize (Hfuel r es eq_refl Hes). lia.
    + destruct fuel; [lia|]. simpl. rewrite Hes. by rewrite app_nil_r.
  - by rewrite app_nil_r.
Qed.

(** The walk from entry [i] over [n] entries that hold observers. *)
Lemma Set_forEach_skip_observers n : ∀ fuel r i st cs es,
  heap st !! r = Some es →
  i + n ≤ length es →
  (∀ c, c ∈ JSSet.members (take n (drop i es)) → handler c ev = []) →
  Set_forEach handler (n + fuel) r i ev st cs
  = Set_forEach handler fuel r (i + n) ev st
      (cs ++ calls_of ev (JSSet.members (take n (drop i es)))).
Proof.
  induction n as [|n IH]; intros fuel r i st cs es Hes Hlen Hq.
  - simpl. by rewrite Nat.add_0_r, app_nil_r.
  - cbn [Nat.add Set_forEach]. rewrite Hes.
    destruct (es !! i) as [e|] eqn:Hi;
      [|apply lookup_ge_None in Hi; lia].
    rewrite (drop_S _ _ _ Hi) in Hq |- *. cbn [take] in Hq |- *.
    replace (i + S n) with (S i + n) by lia.
    destruct e as [c|]; simpl in Hq |- *.
    + rewrite (Hq c) by left. simpl.
      rewrite (IH _ _ _ _ _ es); [|done|lia|intros; apply Hq; by right].
      by rewrite <- app_assoc.
    + by apply IH; [|lia|].
Qed.

(** Where a member sits in the entry list. *)
Lemma members_split es (l1 l2 : list Callback) c :
  JSSet.members es = l1 ++ c :: l2 →
  ∃ j, es !! j = Some (Some c)
       ∧ JSSet.members (take j es) = l1
       ∧ JSSet.members (drop (S j) es) = l2.
Proof.
  revert l1. induction es as [|e es IH]; intros l1 H; simpl in H.
  - by destruct l1.
  - destruct e as [x|]; simpl in H.
    + destruct l1 as [|y l1]; simpl in H.
      * injection H as -> <-. by exists 0.
      * injection H as -> H. destruct (IH _ H) as (j & Hj & Ht & Hd).
        exists (S j). split_and!; [done| |done]. simpl. by rewrite Ht.
    + destruct (IH _ H) as (j & Hj & Ht & Hd).
      exists (S j). by split_and!.
Qed.

Lemma delete_app_r c es1 es2 :
  c ∉ JSSet.members es1 →
  JSSet.delete c (es1 ++ es2) = es1 ++ JSSet.delete c es2.
Proof.
  rewrite elem_of_members.
  induction es1 as [|e es1 IH]; intros H; simpl; [done|].
  rewrite not_elem_of_cons in H. destruct H as [Hne Hnin].
  rewrite decide_False by done. by rewrite IH.
Qed.

Lemma members_drop_delete_later es j c :
  NoDup (JSSet.members es) → j < length es →
  c ∈ JSSet.members (drop (S j) es) →
  JSSet.members (drop (S j) (JSSet.delete c es))
  = filter (λ x, x ≠ c) (JSSet.members (drop (S j) es)).
Proof.
  intros Hnd Hj Hin.
  rewrite <- (take_drop (S j) es) in Hnd. rewrite members_app in Hnd.
  apply NoDup_app in Hnd as (_ & Hdisj & Hnd2).
  rewrite <- (take_drop (S j) es) at 1.
  rewrite delete_app_r by (intros H; by eapply Hdisj).
  rewrite drop_app_length' by (rewrite length_take; lia).
  by apply members_delete.
Qed.


(** The walk over a set in which one member, [c1], is not an observer:
    [es'] is the entry list after [c1] has run, [l2'] its members behind
    [c1]. *)
Lemma Set_forEach_actor fuel r st cs es es' (l1 l2 l2' : list Callback) c1 :
  heap st !! r = Some es →
  JSSet.members es = l1 ++ c1 :: l2 →
  (∀ c, c ∈ l1 → handler c ev = []) →
  heap (run_commands (handler c1 ev) st) !! r = Some es' →
  (∀ j, es !! j = Some (Some c1) → JSSet.members (drop (S j) es) = l2 →
        JSSet.members (drop (S j) es') = l2') →
  (∀ c, c ∈ l2' → handler c ev = []) →
  length es < fuel → length es' < fuel →
  Set_forEach handler fuel r 0 ev st cs
  = Some (run_commands (handler c1 ev) st,
          cs ++ calls_of ev (l1 ++ c1 :: l2')).
Proof.
  intros Hes Hm Hobs1 Hes' Hl2' Hobs2 Hfuel Hfuel'.
  destruct (members_split es l1 l2 c1 Hm) as (j & Hj & Ht & Hd).
  pose proof (lookup_lt_Some _ _ _ Hj) as Hlt.
  replace fuel with (j + S (fuel - j - 1)) by lia.
  rewrite (Set_forEach_skip_observers j _ _ _ _ _ es), drop_0;
    [|done|simpl; lia|rewrite drop_0, Ht; done].
  cbn [Nat.add Set_forEach]. rewrite Hes, Hj, Ht.
  rewrite (Set_forEach_observers _ _ _ _ _ es' Hes').
  - rewrite (Hl2' j Hj Hd). f_equal. f_equal.
    rewrite calls_of_app. simpl. by rewrite <- !app_assoc.
  - rewrite (Hl2' j Hj Hd). done.
  - lia.
Qed.

End LiveWalk.

Lemma first_candidate_apart (a : StorageAction) (k : string) :
  k ≠ "*" →
  "*:" +:+ action_string a ≠ k +:+ ":" +:+ action_string a
  ∧ k +:+ ":*" ≠ k +:+ ":" +:+ action_string a.
Proof.
  intros Hk. split.
  - intros H. apply Hk.
    by apply (append_inj_r k "*" (":" +:+ action_string a)).
  - intros H%append_inj_l. by destruct a.
Qed.

(** The dispatch of a [set] or [delete] event in which one subscriber of
    the first candidate pattern changes the set of that pattern. *)
Lemma notify_actor (handler : Callback → StorageEvent → list Storage.Command)
    fuel (a : StorageAction) (k : string) (v : JSValue)
    st cs r es es' (l1 l2 l2' : list Callback) c1 :
  let ev := mkEvent a (Some k) v in
  a ≠ ActionClear → k ≠ "*" → wf st →
  JSMap.get (k +:+ ":" +:+ action_string a) (subscribersMap st) = Some r →
  heap st !! r = Some es →
  JSSet.members es = l1 ++ c1 :: l2 →
  (∀ c, c ∈ l1 → handler c ev = []) →
  subscribersMap (Storage.run_commands (handler c1 ev) st) = subscribersMap st →
  heap (Storage.run_commands (handler c1 ev) st) !! r = Some es' →
  (∀ r', r' ≠ r → heap (Storage.run_commands (handler c1 ev) st) !! r' = heap st !! r') →
  (∀ j, es !! j = Some (Some c1) → JSSet.members (drop (S j) es) = l2 →
        JSSet.members (drop (S j) es') = l2') →
  (∀ c, c ∈ l2' → handler c ev = []) →
  (∀ c, c ∈ Storage.subscribers ("*:" +:+ action_string a) st → handler c ev = []) →
  (∀ c, c ∈ Storage.subscribers (k +:+ ":*") st → handler c ev = []) →
  length es' ≤ S (length es) →
  dispatch_bound st + 1 < fuel →
  Storage._notify handler fuel ev st cs
  = Some (Storage.run_commands (handler c1 ev) st,
          cs ++ calls_of ev
                  (l1 ++ c1 :: l2'
                   ++ Storage.subscribers ("*:" +:+ action_string a) st
                   ++ Storage.subscribers (k +:+ ":*") st)).
Proof.
  intros ev Ha Hk Hwf Hg Hes Hm Hobs1 Hmap Hes' Hother Hl2' Hobs2 Hobs3 Hobs4
    Hlen Hfuel.
  destruct (first_candidate_apart a k Hk) as [Hp2 Hp3].
  pose proof (heap_length_bound _ _ _ Hes) as Hb.
  unfold dispatch_bound in Hfuel.
  unfold Storage._notify. rewrite decide_False by done. simpl.
  change (Storage.key_string ev) with k. unfold Storage.lookup_forEach at 1. rewrite Hg.
  rewrite (Set_forEach_actor handler ev _ _ _ _ es es' l1 l2 l2' c1); [|done..|lia|lia].
  fold ev. set (st' := Storage.run_commands _ st) in *.
  assert (Hsame : ∀ q, q ≠ k +:+ ":" +:+ action_string a →
                       Storage.subscribers q st' = Storage.subscribers q st).
  { intros q Hq. unfold Storage.subscribers. rewrite Hmap.
    destruct (JSMap.get q (subscribersMap st)) as [rq|] eqn:Hgq; [|done].
    rewrite Hother; [done|]. intros ->. apply Hq. by eapply wf_get_inj. }
  assert (Hsize : ∀ q rq esq, JSMap.get q (subscribersMap st') = Some rq →
                              heap st' !! rq = Some esq → length esq < fuel).
  { intros q rq esq _ Hq. destruct (decide (rq = r)) as [->|Hne].
    - rewrite Hes' in Hq. injection Hq as <-. lia.
    - rewrite Hother in Hq by done.
      pose proof (heap_length_bound _ _ _ Hq). lia. }
  rewrite lookup_forEach_observers;
    [|by rewrite Hsame by done|lia|by apply Hsize].
  rewrite lookup_forEach_observers;
    [|by rewrite Hsame by done|lia|by apply Hsize].
  rewrite !Hsame by done. f_equal. f_equal.
  rewrite !calls_of_app. simpl. rewrite !calls_of_app.
  by rewrite <- !app_assoc.
Qed.


(** X21. A callback that is unsubscribed while the set it belongs to is
    walked, before the walk has reached it, is not invoked: when a
    subscriber [c1] of ["k:action"] calls [removeEventListener] for a
    subscriber [c2] that comes after it, the dispatch invokes the
    subscribers of ["k:action"] but [c2], and then those of ["*:action"]
    and ["k:*"] (the other callbacks being observers). *)
Theorem unsubscribed_before_reached
    (handler : Callback → StorageEvent → list Storage.Command) (fuel : nat)
    (a : StorageAction) (k : string) (v : JSValue) (st : Router) (cs : Calls)
    (c1 c2 : Callback) (l1 l2 : list Callback) :
  let ev := mkEvent a (Some k) v in
  let p := k +:+ ":" +:+ action_string a in
  a ≠ ActionClear → k ≠ "*" → wf st →
  Storage.subscribers p st = l1 ++ c1 :: l2 →
  c2 ∈ l2 →
  handler c1 ev = [Storage.CmdRemoveEventListener p c2] →
  (∀ c, c ∈ l1 ++ l2
          ++ Storage.subscribers ("*:" +:+ action_string a) st
          ++ Storage.subscribers (k +:+ ":*") st →
        handler c ev = []) →
  dispatch_bound st + 1 < fuel →
  Storage._notify handler fuel ev st cs
  = Some (Storage.removeEventListener p c2 st,
          cs ++ calls_of ev
                  (l1 ++ c1 :: filter (λ x, x ≠ c2) l2
                   ++ Storage.subscribers ("*:" +:+ action_string a) st
                   ++ Storage.subscribers (k +:+ ":*") st)).
Proof.
  intros ev p Ha Hk Hwf Hsub Hc2 Hc1 Hobs Hfuel. subst ev p.
  unfold Storage.subscribers in Hsub.
  destruct (JSMap.get _ (subscribersMap st)) as [r|] eqn:Hg;
    [|by destruct l1].
  destruct (wf_get_is_Some _ _ _ Hwf Hg) as (es & Hes & Hnd).
  rewrite Hes in Hsub.
  assert (Hrun : Storage.run_commands (handler c1 (mkEvent a (Some k) v)) st
                 = Storage.removeEventListener
                     (k +:+ ":" +:+ action_string a) c2 st)
    by (by rewrite Hc1).
  assert (Hrem : Storage.removeEventListener
                   (k +:+ ":" +:+ action_string a) c2 st
                 = heap_delete r c2 st)
    by (unfold Storage.removeEventListener; by rewrite Hg).
  rewrite <- Hrun.
  apply (notify_actor handler fuel a k v st cs r es (JSSet.delete c2 es)
           l1 l2 (filter (λ x, x ≠ c2) l2) c1); try done.
  - intros c Hc. apply Hobs. rewrite !elem_of_app. auto.
  - rewrite Hrun, Hrem. apply heap_delete_map.
  - rewrite Hrun, Hrem. by apply heap_delete_same.
  - intros r' Hr'. rewrite Hrun, Hrem. by apply heap_delete_other.
  - intros j Hj Hd. rewrite <- Hd.
    apply members_drop_delete_later; [done|by apply lookup_lt_Some in Hj|].
    by rewrite Hd.
  - intros c [_ Hc]%list_elem_of_filter. apply Hobs. rewrite !elem_of_app. auto.
  - intros c Hc. apply Hobs. rewrite !elem_of_app. auto.
  - intros c Hc. apply Hobs. rewrite !elem_of_app. auto.
  - rewrite length_delete. lia.
Qed.

Lemma unsubscribed_before_reached_witness :
  Storage._notify reentrant 9 k_set router_1_2 []
  = Some (Storage.removeEventListener "k:set" 2 router_1_2, [(1, k_set)]).
Proof.
  apply (unsubscribed_before_reached reentrant 9 ActionSet "k" JNull
           router_1_2 [] 1 2 [] [2]).
  - discriminate.
  - discriminate.
  - apply wf_listen, wf_empty.
  - done.
  - present.
  - done.
  - intros c Hc. change (c ∈ [2]) in Hc.
    by apply list_elem_of_singleton in Hc as ->.
  - vm_compute. lia.
Defined.

(** X22. A callback that is subscribed to the set that is being walked is
    invoked by the same dispatch: when a subscriber [c1] of ["k:action"]
    calls [addEventListener] for a new callback [c3] under that pattern,
    the dispatch invokes the subscribers of ["k:action"], then [c3], and
    then the subscribers of ["*:action"] and ["k:*"] (the other callbacks
    being observers). *)
Theorem subscribed_while_walked
    (handler : Callback → StorageEvent → list Storage.Command) (fuel : nat)
    (a : StorageAction) (k : string) (v : JSValue) (st : Router) (cs : Calls)
    (c1 c3 : Callback) (l1 l2 : list Callback) :
  let ev := mkEvent a (Some k) v in
  let p := k +:+ ":" +:+ action_string a in
  a ≠ ActionClear → k ≠ "*" → wf st →
  Storage.subscribers p st = l1 ++ c1 :: l2 →
  c3 ∉ Storage.subscribers p st →
  handler c1 ev = [Storage.CmdAddEventListener p c3] →
  (∀ c, c ∈ l1 ++ l2 ++ [c3]
          ++ Storage.subscribers ("*:" +:+ action_string a) st
          ++ Storage.subscribers (k +:+ ":*") st →
        handler c ev = []) →
  dispatch_bound st + 1 < fuel →
  Storage._notify handler fuel ev st cs
  = Some ((Storage.addEventListener p c3 st).2,
          cs ++ calls_of ev
                  (l1 ++ c1 :: (l2 ++ [c3])
                   ++ Storage.subscribers ("*:" +:+ action_string a) st
                   ++ Storage.subscribers (k +:+ ":*") st)).
Proof.
  intros ev p Ha Hk Hwf Hsub Hc3 Hc1 Hobs Hfuel. subst ev p.
  unfold Storage.subscribers in Hsub, Hc3.
  destruct (JSMap.get _ (subscribersMap st)) as [r|] eqn:Hg;
    [|by destruct l1].
  destruct (wf_get_is_Some _ _ _ Hwf Hg) as (es & Hes & Hnd).
  rewrite Hes in Hsub, Hc3.
  assert (Hrun : Storage.run_commands (handler c1 (mkEvent a (Some k) v)) st
                 = (Storage.addEventListener
                      (k +:+ ":" +:+ action_string a) c3 st).2)
    by (by rewrite Hc1).
  assert (Hadd : JSSet.add c3 es = es ++ [Some c3]).
  { unfold JSSet.add, JSSet.has. rewrite bool_decide_eq_false_2; [done|].
    by rewrite <- elem_of_members. }
  rewrite <- Hrun.
  apply (notify_actor handler fuel a k v st cs r es (es ++ [Some c3])
           l1 l2 (l2 ++ [c3]) c1); try done.
  - intros c Hc. apply Hobs. rewrite !elem_of_app. auto.
  - rewrite Hrun. by rewrite (addEventListener_registered _ _ _ _ _ Hg Hes).
  - rewrite Hrun. rewrite (addEventListener_registered _ _ _ _ _ Hg Hes).
    simpl. rewrite Hadd.
    apply list_lookup_insert_eq. by apply lookup_lt_Some in Hes.
  - intros r' Hr'. rewrite Hrun.
    rewrite (addEventListener_registered _ _ _ _ _ Hg Hes). simpl.
    by apply list_lookup_insert_ne.
  - intros j Hj Hd.
    rewrite drop_app_le by (apply lookup_lt_Some in Hj; lia).
    by rewrite members_app, Hd.
  - intros c [Hc|Hc]%elem_of_app; apply Hobs; rewrite !elem_of_app; auto 6.
  - intros c Hc. apply Hobs. rewrite !elem_of_app. auto.
  - intros c Hc. apply Hobs. rewrite !elem_of_app. auto 6.
  - rewrite length_app. simpl. lia.
Qed.

Lemma subscribed_while_walked_witness :
  Storage._notify reentrant 9 k_set router_3 []
  = Some ((Storage.addEventListener "k:set" 4 router_3).2,
          [(3, k_set); (4, k_set)]).
Proof.
  apply (subscribed_while_walked reentrant 9 ActionSet "k" JNull
           router_3 [] 3 4 [] []).
  - discriminate.
  - discriminate.
  - apply wf_listen, wf_empty.
  - done.
  - vm_compute. absent.
  - done.
  - intros c Hc. change (c ∈ [4]) in Hc.
    by apply list_elem_of_singleton in Hc as ->.
  - vm_compute. lia.
Defined.
